(** * Adversarial depth examples: a model of [adversarial/adversarial_depth.py]

    The script loads two images, builds a loss and its normalised gradient
    from a frozen depth model, runs a fixed number of in-place update steps
    on the input image and displays the result.

    The development follows the script function by function:
    - pixel arithmetic is an interface ([Arith]); nothing is assumed about
      it unless a statement says so. Two instances are used: the integers,
      and the binary64 floating-point numbers, which round and have a NaN;
    - numpy arrays are a shape with C-contiguous data ([ndarray]);
    - Python exceptions are a [result]; the interpreter's state (the heap of
      array objects, the module global [get_loss_and_gradients], and the
      sequence of externally visible calls) is a [world] threaded by the
      monad [M];
    - the model wrapper, the Keras autodiff, the Keras fuzz factor, what
      Keras accepts when the graph of the loss is built, and what
      [plt.imshow] accepts are parameters. *)

From stdpp Require Import strings.
From stdpp Require Import base option list numbers.
From Stdlib Require PrimFloat Uint63.

Set Warnings "-inexact-float".

Local Open Scope nat_scope.

(** ** Python exceptions *)

Inductive exn :=
| IndexError
| NameError
| ValueError
| AxisError
| OtherError (name : string).

Inductive result (A : Type) :=
| Ok (a : A)
| Raise (e : exn).
Arguments Ok {A} a.
Arguments Raise {A} e.

#[global] Instance result_ret : MRet result := λ A a, Ok a.
#[global] Instance result_bind : MBind result := λ A B f r,
  match r with
  | Ok a => f a
  | Raise e => Raise e
  end.

(** ** Pixel arithmetic *)

Class Arith (R : Type) := {
  fzero : R;
  fone : R;
  fadd : R → R → R;
  fsub : R → R → R;
  fmul : R → R → R;
  fdiv : R → R → R;
  fabs : R → R;
  fleb : R → R → bool;
  fof_nat : nat → R
}.

(** ** numpy arrays *)

Record ndarray (R : Type) := Ndarray {
  shape : list nat;
  data : list R
}.
Arguments Ndarray {R} shape data.
Arguments shape {R} _.
Arguments data {R} _.

(** Number of elements of an array of a given shape. *)
Definition size_of (s : list nat) : nat := foldr Nat.mul 1 s.

Definition well_formed {R} (a : ndarray R) : Prop :=
  length (data a) = size_of (shape a).

Section Indexing.
Context {R : Type}.

(** [l] read as [n] consecutive groups of [stride] elements: the first [m]
    elements of each group. *)
Fixpoint take_blocks (n stride m : nat) (l : list R) : list R :=
  match n with
  | 0 => []
  | S n' => take m l ++ take_blocks n' stride m (drop stride l)
  end.

(** [l] read as [n] consecutive blocks of [m] elements: each block three
    times. *)
Fixpoint triple_blocks (n m : nat) (l : list R) : list R :=
  match n with
  | 0 => []
  | S n' =>
      let b := take m l in
      b ++ b ++ b ++ triple_blocks n' m (drop m l)
  end.

(** [a[0]] *)
Definition getitem0 (a : ndarray R) : result (ndarray R) :=
  match shape a with
  | [] => Raise IndexError
  | d :: ds =>
      if decide (d = 0) then Raise IndexError
      else Ok (Ndarray ds (take (size_of ds) (data a)))
  end.

(** [a.shape[2]] *)
Definition shape2 (a : ndarray R) : result nat :=
  match shape a !! 2 with
  | Some c => Ok c
  | None => Raise IndexError
  end.

(** [a[:,:,0]] *)
Definition getitem_all_all_0 (a : ndarray R) : result (ndarray R) :=
  match shape a with
  | h :: w :: c :: rest =>
      if decide (c = 0) then Raise IndexError
      else Ok (Ndarray (h :: w :: rest)
                 (take_blocks (h * w) (c * size_of rest) (size_of rest) (data a)))
  | _ => Raise IndexError
  end.

(** [np.stack((a, a, a), axis=2)] *)
Definition stack3_axis2 (a : ndarray R) : result (ndarray R) :=
  match shape a with
  | h :: w :: rest =>
      Ok (Ndarray (h :: w :: 3 :: rest)
            (triple_blocks (h * w) (size_of rest) (data a)))
  | _ => Raise AxisError
  end.

(** [to_multichannel(image)] *)
Definition to_multichannel (image : ndarray R) : result (ndarray R) :=
  c ← shape2 image;
  if decide (c = 3) then Ok image
  else
    image ← getitem_all_all_0 image;
    stack3_axis2 image.

(** The element at row [i], column [j], channel [k] of a rank-3 array. *)
Definition pixel (a : ndarray R) (i j k : nat) : option R :=
  match shape a with
  | [h; w; c] =>
      if decide (i < h ∧ j < w ∧ k < c)
      then data a !! ((i * w + j) * c + k)
      else None
  | _ => None
  end.

(** The number of channels of a rank-3 array. *)
Definition channels (a : ndarray R) : option nat :=
  match shape a with
  | [_; _; c] => Some c
  | _ => None
  end.
End Indexing.

(** ** numpy and Keras-backend arithmetic on arrays *)

Section Numpy.
Context {R : Type} `{Arith R}.

(** [l] cut into [n] consecutive blocks of [m] elements. *)
Fixpoint chunks (m n : nat) (l : list R) : list (list R) :=
  match n with
  | 0 => []
  | S n' => take m l :: chunks m n' (drop m l)
  end.

(** Broadcasting of C-contiguous data from shape [src] to shape [tgt] of
    the same rank: an axis of [src] either has the target's size or has
    size 1 and is repeated. *)
Fixpoint broadcast_data (tgt src : list nat) (d : list R) : option (list R) :=
  match tgt, src with
  | [], [] => Some d
  | t :: tgt', s :: src' =>
      if decide (s = t) then
        @concat R <$> mapM (broadcast_data tgt' src') (chunks (size_of src') s d)
      else if decide (s = 1) then
        r ← broadcast_data tgt' src' d; Some (concat (replicate t r))
      else None
  | _, _ => None
  end.

(** [np.broadcast_to(b, tgt)]: shapes are aligned on their last axes. *)
Definition broadcast_to (tgt : list nat) (b : ndarray R) : result (list R) :=
  if decide (length (shape b) ≤ length tgt) then
    let src := replicate (length tgt - length (shape b)) 1 ++ shape b in
    match broadcast_data tgt src (data b) with
    | Some d => Ok d
    | None => Raise ValueError
    end
  else Raise ValueError.

(** The common shape of two operands, on reversed shapes. *)
Fixpoint broadcast_dims (s1 s2 : list nat) : option (list nat) :=
  match s1, s2 with
  | [], _ => Some s2
  | _, [] => Some s1
  | a :: s1', b :: s2' =>
      rest ← broadcast_dims s1' s2';
      if decide (a = b) then Some (a :: rest)
      else if decide (a = 1) then Some (b :: rest)
      else if decide (b = 1) then Some (a :: rest)
      else None
  end.

Definition broadcast_shape (s1 s2 : list nat) : result (list nat) :=
  match broadcast_dims (reverse s1) (reverse s2) with
  | Some s => Ok (reverse s)
  | None => Raise ValueError
  end.

(** [s * a] for a scalar [s] *)
Definition np_scale (s : R) (a : ndarray R) : ndarray R :=
  Ndarray (shape a) (fmul s <$> data a).

(** The new contents of [a] after [a -= b]. *)
Definition np_isub (a b : ndarray R) : result (ndarray R) :=
  d ← broadcast_to (shape a) b;
  Ok (Ndarray (shape a) (zip_with fsub (data a) d)).

(** [a - b], and the other element-wise binary operations *)
Definition np_binary (op : R → R → R) (a b : ndarray R) : result (ndarray R) :=
  s ← broadcast_shape (shape a) (shape b);
  da ← broadcast_to s a;
  db ← broadcast_to s b;
  Ok (Ndarray s (zip_with op da db)).

Definition np_sub : ndarray R → ndarray R → result (ndarray R) := np_binary fsub.

(** [np.zeros(s)] *)
Definition np_zeros (s : list nat) : ndarray R :=
  Ndarray s (replicate (size_of s) fzero).

(** Values of the Keras backend operations the script uses. *)
Definition tf_square (a : ndarray R) : ndarray R :=
  Ndarray (shape a) ((λ v, fmul v v) <$> data a).

Definition tf_abs (a : ndarray R) : ndarray R :=
  Ndarray (shape a) (fabs <$> data a).

Definition tf_sum (a : ndarray R) : R := foldr fadd fzero (data a).

Definition tf_prod (a : ndarray R) : R := foldr fmul fone (data a).

Definition tf_mean (a : ndarray R) : R :=
  fdiv (tf_sum a) (fof_nat (length (data a))).

(** [K.cast(K.shape(a), 'float32')]: the vector of the axis sizes. *)
Definition tf_shape_float32 (a : ndarray R) : ndarray R :=
  Ndarray [length (shape a)] (fof_nat <$> shape a).

Definition tf_maximum (x y : R) : R := if fleb x y then y else x.

Definition tf_div_scalar (a : ndarray R) (d : R) : ndarray R :=
  Ndarray (shape a) ((λ v, fdiv v d) <$> data a).

(** A symbolic tensor is read as the value it takes for each array fed
    to [model.input]; evaluating it may raise. *)
Definition sym (A : Type) : Type := ndarray R → result A.

Definition K_constant (a : ndarray R) : sym (ndarray R) := λ _, Ok a.
Definition K_sub (a b : sym (ndarray R)) : sym (ndarray R) :=
  λ x, va ← a x; vb ← b x; np_sub va vb.
Definition K_square (a : sym (ndarray R)) : sym (ndarray R) :=
  λ x, va ← a x; Ok (tf_square va).
Definition K_abs (a : sym (ndarray R)) : sym (ndarray R) :=
  λ x, va ← a x; Ok (tf_abs va).
Definition K_sum (a : sym (ndarray R)) : sym R :=
  λ x, va ← a x; Ok (tf_sum va).
Definition K_prod (a : sym (ndarray R)) : sym R :=
  λ x, va ← a x; Ok (tf_prod va).
Definition K_mean (a : sym (ndarray R)) : sym R :=
  λ x, va ← a x; Ok (tf_mean va).
Definition K_cast_shape (a : sym (ndarray R)) : sym (ndarray R) :=
  λ x, va ← a x; Ok (tf_shape_float32 va).
Definition K_maximum (a : sym R) (y : R) : sym R :=
  λ x, va ← a x; Ok (tf_maximum va y).
Definition K_div (a b : sym R) : sym R :=
  λ x, va ← a x; vb ← b x; Ok (fdiv va vb).
Definition K_div_scalar (a : sym (ndarray R)) (d : sym R) : sym (ndarray R) :=
  λ x, va ← a x; vd ← d x; Ok (tf_div_scalar va vd).

(** [K.function([model.input], [loss, gradients])] *)
Definition kfunction : Type := list (ndarray R) → result (list (ndarray R)).

Definition K_function (loss : sym R) (gradients : sym (ndarray R)) : kfunction :=
  λ inputs,
    match inputs with
    | [x] => l ← loss x; g ← gradients x; Ok [Ndarray [] [l]; g]
    | _ => Raise ValueError
    end.
End Numpy.
Arguments sym : clear implicits.
Arguments kfunction : clear implicits.

(** ** The interpreter's state *)

(** Array objects live in a heap and are named by their address, so that
    two names of one object see each other's in-place updates. *)
Abbreviation loc := nat (only parsing).

(** Image paths *)
Definition SINK_IMAGE : string :=
  "/usr/local/google/home/ellenj/Documents/BigPicture/DenseDepth/examples/1_image.png"%string.
Definition BATHTUB_IMAGE : string :=
  "/usr/local/google/home/ellenj/Documents/BigPicture/DenseDepth/examples/11_image.png"%string.

Section Script.
Context {R : Type} `{Arith R}.
Context {Model : Type}.

(** What a run does that is visible from outside the script, in order:
    the calls into the model wrapper, Keras and matplotlib, each recorded
    when it is made, and the three steps of the script the specification
    speaks about (binding the global, evaluating the compiled function,
    updating the image in place). *)
Inductive event :=
| EvSetLearningPhase (phase : Z)
| EvInitializeModel
| EvLoadImage (path : string)
| EvPredict (image : ndarray R)
| EvGetFinalLayer
| EvBindGlobal
| EvEvaluate (input : ndarray R)
| EvPrint (i : Z) (loss : ndarray R)
| EvInplaceSub (target : loc)
| EvFigure
| EvImshow (image : ndarray R)
| EvShow.

Record world := World {
  heap : list (ndarray R);
  get_loss_and_gradients : option (kfunction R);
  trace : list event
}.

Definition M (A : Type) : Type := world → result A * world.

#[global] Instance M_ret : MRet M := λ A a w, (Ok a, w).
#[global] Instance M_bind : MBind M := λ A B f m w,
  match m w with
  | (Ok a, w') => f a w'
  | (Raise e, w') => (Raise e, w')
  end.

Definition lift {A} (r : result A) : M A := λ w, (r, w).

Definition emit (e : event) : M unit :=
  λ w, (Ok tt, World (heap w) (get_loss_and_gradients w) (trace w ++ [e])).

Definition alloc (a : ndarray R) : M loc :=
  λ w, (Ok (length (heap w)),
        World (heap w ++ [a]) (get_loss_and_gradients w) (trace w)).

Definition deref (l : loc) : M (ndarray R) :=
  λ w, match heap w !! l with
       | Some a => (Ok a, w)
       | None => (Raise (OtherError "invalid reference"), w)
       end.

Definition store (l : loc) (a : ndarray R) : M unit :=
  λ w, (Ok tt, World (<[l:=a]> (heap w)) (get_loss_and_gradients w) (trace w)).

(** [global get_loss_and_gradients; get_loss_and_gradients = f] *)
Definition bind_global (f : kfunction R) : M unit :=
  λ w, (Ok tt, World (heap w) (Some f) (trace w ++ [EvBindGlobal])).

(** Reading the global name; it is unbound until its first assignment. *)
Definition read_global : M (kfunction R) :=
  λ w, match get_loss_and_gradients w with
       | Some f => (Ok f, w)
       | None => (Raise NameError, w)
       end.

(** [results[i]] on a Python list *)
Definition list_getitem {A} (l : list A) (i : nat) : result A :=
  match l !! i with
  | Some x => Ok x
  | None => Raise IndexError
  end.

(** [for x in l: body(x)] *)
Fixpoint for_each {A} (l : list A) (body : A → M unit) : M unit :=
  match l with
  | [] => mret tt
  | x :: l' => body x;; for_each l' body
  end.

(** [range(n)] *)
Definition range (n : Z) : list Z := Z.of_nat <$> seq 0 (Z.to_nat n).

(** [a.copy()] *)
Definition copy (l : loc) : M loc := a ← deref l; alloc a.

(** [target -= b] *)
Definition isub (target : loc) (b : ndarray R) : M unit :=
  a ← deref target;
  a' ← lift (np_isub a b);
  store target a';;
  emit (EvInplaceSub target).

(** The model wrapper: an object supplied by the caller. Its methods may
    raise; they return fresh arrays and do not touch the arrays they are
    given. *)
Record DepthModelWrapper := {
  initialize_model : result Model;
  load_image : string → result (ndarray R);
  predict : Model → ndarray R → result (ndarray R);
  get_final_layer : Model → result (sym R (ndarray R))
}.

Definition call_initialize_model (depth_model_wrapper : DepthModelWrapper)
  : M Model :=
  emit EvInitializeModel;;
  lift (initialize_model depth_model_wrapper).

Definition call_load_image (depth_model_wrapper : DepthModelWrapper)
    (path : string) : M loc :=
  emit (EvLoadImage path);;
  a ← lift (load_image depth_model_wrapper path);
  alloc a.

Definition call_predict (depth_model_wrapper : DepthModelWrapper)
    (model : Model) (image : loc) : M loc :=
  a ← deref image;
  emit (EvPredict a);;
  out ← lift (predict depth_model_wrapper model a);
  alloc out.

Definition call_get_final_layer (depth_model_wrapper : DepthModelWrapper)
    (model : Model) : M (sym R (ndarray R)) :=
  emit EvGetFinalLayer;;
  lift (get_final_layer depth_model_wrapper model).

(** [K.gradients(loss, model.input)[0]]: the framework's automatic
    differentiation, and [K.epsilon()], the framework's fuzz factor. *)
Variable K_gradients : sym R R → sym R (ndarray R).
Variable K_epsilon : R.

(** Lines 150 to 157 add the operations of the loss and of the normalised
    gradient to the framework's graph, differentiate and compile. The
    framework checks each operation as it is added (the static shapes of
    its operands, that the loss depends on the input) and raises on what it
    does not accept, at that line, whatever the arrays fed later would be.
    What is accepted is the framework's business: [K_compile] is [Ok tt]
    when all of these lines go through for the given model, final layer
    and target, and the exception otherwise. *)
Variable K_compile : Model → sym R (ndarray R) → ndarray R → result unit.

(** What [plt.imshow] makes of the array it is given: matplotlib validates
    it (its shape among others) and raises on what it cannot draw. Which
    arrays are accepted is matplotlib's business. *)
Variable plt_imshow : ndarray R → result unit.

Definition get_sink_to_bathtub_inputs
    (depth_model_wrapper : DepthModelWrapper) (model : Model)
  : M (loc * loc) :=
  input_image ← call_load_image depth_model_wrapper SINK_IMAGE;
  bathtub ← call_load_image depth_model_wrapper BATHTUB_IMAGE;
  target_depth_output ← call_predict depth_model_wrapper model bathtub;
  mret (input_image, target_depth_output).

(** [plt.imshow(image)]: the call is recorded, then matplotlib has its
    say. *)
Definition call_imshow (image : ndarray R) : M unit :=
  emit (EvImshow image);;
  lift (plt_imshow image).

Definition display_image (image : loc) (is_input : bool) : M unit :=
  emit EvFigure;;
  a ← deref image;
  (if is_input then
     first ← lift (getitem0 a);
     shown ← lift (to_multichannel first);
     call_imshow shown
   else
     first ← lift (getitem0 a);
     rescaled ← lift (getitem_all_all_0 first);
     call_imshow rescaled);;
  emit EvShow.

Definition display (depth_model_wrapper : DepthModelWrapper) (model : Model)
    (original_image altered_image : loc) : M unit :=
  original_output ← call_predict depth_model_wrapper model original_image;
  altered_output ← call_predict depth_model_wrapper model altered_image;
  display_image original_image true;;
  display_image original_output false;;
  display_image altered_image true;;
  display_image altered_output false.

Definition retrieve_loss_and_gradients (input_image : loc)
  : M (ndarray R * ndarray R) :=
  f ← read_global;
  x ← deref input_image;
  emit (EvEvaluate x);;
  results ← lift (f [x]);
  loss ← lift (list_getitem results 0);
  gradients ← lift (list_getitem results 1);
  mret (loss, gradients).

Definition gradient_ascent (input_image : loc) (iterations : Z)
    (step_size : R) : M loc :=
  for_each (range iterations) (λ i,
    '(loss, gradients) ← retrieve_loss_and_gradients input_image;
    emit (EvPrint i loss);;
    isub input_image (np_scale step_size gradients));;
  mret input_image.

(** The loss and the normalised gradient, as [generate_adversarial_example]
    builds them from the final layer and the target. They are symbolic:
    building them computes nothing on arrays, and what an operation does on
    the arrays it is fed shows when the compiled function is evaluated.
    Whether they can be built at all is [K_compile]'s to say. *)
Definition scale_factor (final_layer_output : sym R (ndarray R)) : sym R R :=
  K_prod (K_cast_shape final_layer_output).

Definition loss_of (final_layer_output : sym R (ndarray R))
    (goal_output : ndarray R) : sym R R :=
  K_div (K_sum (K_square (K_sub final_layer_output (K_constant goal_output))))
        (scale_factor final_layer_output).

Definition normalizer (gradients : sym R (ndarray R)) : sym R R :=
  K_maximum (K_mean (K_abs gradients)) K_epsilon.

Definition gradients_of (loss : sym R R) : sym R (ndarray R) :=
  let gradients := K_gradients loss in
  K_div_scalar gradients (normalizer gradients).

(** The script proper. The defaults of [iterations] and [step_size] (100
    and 0.001) are the caller's to pass. *)
Definition generate_adversarial_example
    (depth_model_wrapper : DepthModelWrapper) (iterations : Z)
    (step_size : R) : M unit :=
  emit (EvSetLearningPhase 0);;
  model ← call_initialize_model depth_model_wrapper;
  '(input_image, goal_output) ←
    get_sink_to_bathtub_inputs depth_model_wrapper model;
  final_layer_output ← call_get_final_layer depth_model_wrapper model;
  goal ← deref goal_output;
  lift (K_compile model final_layer_output goal);;
  let loss := loss_of final_layer_output goal in
  let gradients := gradients_of loss in
  bind_global (K_function loss gradients);;
  original_image ← copy input_image;
  altered_image ← gradient_ascent input_image iterations step_size;
  display depth_model_wrapper model original_image altered_image.
End Script.
Arguments event : clear implicits.
Arguments world : clear implicits.
Arguments DepthModelWrapper : clear implicits.

(** A fresh interpreter: no objects, the global unbound, nothing done. *)
Definition initial_world {R} : world R := World [] None [].

(** ** Vocabulary of the statements *)

Section Vocabulary.
Context {R : Type} `{Arith R}.

(** Every run of [m] relates the world before to the world after. *)
Definition always {A} (rel : world R → world R → Prop) (m : M A) : Prop :=
  ∀ w res w', m w = (res, w') → rel w w'.

(** The global is left as it was and the events added all satisfy [P]. *)
Definition extends (P : event R → Prop) (w w' : world R) : Prop :=
  get_loss_and_gradients w' = get_loss_and_gradients w
  ∧ ∃ evs, trace w' = trace w ++ evs ∧ Forall P evs.

(** No object is created and no object other than [r] is changed. *)
Definition heap_frame (r : loc) (w w' : world R) : Prop :=
  length (heap w') = length (heap w)
  ∧ ∀ l, l ≠ r → heap w' !! l = heap w !! l.

(** Tests on events, for counting. *)
Definition is_evaluateb (e : event R) : bool :=
  match e with EvEvaluate _ => true | _ => false end.

Definition is_inplace_subb (e : event R) : bool :=
  match e with EvInplaceSub _ => true | _ => false end.

Definition is_bindb (e : event R) : bool :=
  match e with EvBindGlobal => true | _ => false end.

(** The events of the loop of [gradient_ascent]. *)
Definition is_loop_event (e : event R) : Prop :=
  match e with
  | EvEvaluate _ | EvPrint _ _ | EvInplaceSub _ => True
  | _ => False
  end.

(** The events of the steps before the loop, the binding of the global
    apart. *)
Definition is_setup_event (e : event R) : Prop :=
  match e with
  | EvSetLearningPhase _ | EvInitializeModel | EvLoadImage _ | EvPredict _
  | EvGetFinalLayer => True
  | _ => False
  end.

(** The events of [display]. *)
Definition is_display_event (e : event R) : Prop :=
  match e with
  | EvPredict _ | EvFigure | EvImshow _ | EvShow => True
  | _ => False
  end.

(** The images passed to [plt.imshow], in order. *)
Definition shown (evs : list (event R)) : list (ndarray R) :=
  omap (λ e, match e with EvImshow a => Some a | _ => None end) evs.

(** Element-wise operation on two arrays of one shape. *)
Definition elementwise (op : R → R → R) (a b : ndarray R) : ndarray R :=
  Ndarray (shape a) (zip_with op (data a) (data b)).

(** On arrays of shape [s], the compiled function [f] returns the loss
    [loss x] and the gradient [grad x], of the shape of its input. *)
Definition computes (f : kfunction R) (loss grad : ndarray R → ndarray R)
    (s : list nat) : Prop :=
  ∀ x, shape x = s → well_formed x →
    f [x] = Ok [loss x; grad x]
    ∧ shape (grad x) = s ∧ well_formed (grad x).

(** The image after [t] updates [x ← x − s × grad x]. *)
Fixpoint image_after (grad : ndarray R → ndarray R) (s : R) (t : nat)
    (x0 : ndarray R) : ndarray R :=
  match t with
  | 0 => x0
  | S t' =>
      let x := image_after grad s t' x0 in
      elementwise fsub x (np_scale s (grad x))
  end.

(** The sum over [t < n] of [s × gradient_t], where [gradient_t] is the
    gradient at the image after [t] updates. *)
Fixpoint accumulated (grad : ndarray R → ndarray R) (s : R) (n : nat)
    (x0 : ndarray R) : ndarray R :=
  match n with
  | 0 => np_zeros (shape x0)
  | S n' =>
      elementwise fadd (accumulated grad s n' x0)
        (np_scale s (grad (image_after grad s n' x0)))
  end.

(** What iterations [k], ..., [k + m - 1] of the loop do. *)
Definition loop_events (r : loc) (loss grad : ndarray R → ndarray R)
    (s : R) (x0 : ndarray R) (k m : nat) : list (event R) :=
  t ← seq k m;
  let x := image_after grad s t x0 in
  [EvEvaluate x; EvPrint (Z.of_nat t) (loss x); EvInplaceSub r].

(** What [display_image] hands to [plt.imshow]: for an input image, the
    first element of the batch after [to_multichannel]; for a depth output,
    channel 0 of the first element of the batch. *)
Definition image_shown (a : ndarray R) (is_input : bool) : result (ndarray R) :=
  first ← getitem0 a;
  if is_input then to_multichannel first else getitem_all_all_0 first.

(** What [generate_adversarial_example] does before it asks for the final
    layer, [b] being the bathtub image. *)
Definition setup_events (b : ndarray R) : list (event R) :=
  [EvSetLearningPhase 0; EvInitializeModel; EvLoadImage SINK_IMAGE;
   EvLoadImage BATHTUB_IMAGE; EvPredict b].

(** What [display_image] does once it has found the image to show. *)
Definition display_events (a : ndarray R) : list (event R) :=
  [EvFigure; EvImshow a; EvShow].

(** The object [r], if there is one, is still there and has kept its
    shape. *)
Definition keeps_shape (r : loc) (w w' : world R) : Prop :=
  ∀ x, heap w !! r = Some x →
    ∃ x', heap w' !! r = Some x' ∧ shape x' = shape x.

(** Objects may have been created; those there were are as they were. *)
Definition heap_prefix (w w' : world R) : Prop :=
  ∃ created, heap w' = heap w ++ created.

(** An array [display_image] cannot hand to [plt.imshow]: fewer than 4
    axes, an empty batch or an empty channel axis. *)
Definition not_displayable (a : ndarray R) : Prop :=
  length (shape a) < 4 ∨ shape a !! 0 = Some 0 ∨ shape a !! 3 = Some 0.

(** The sum of the squares of a list of values. *)
Definition sum_of_squares (d : list R) : R :=
  foldr fadd fzero ((λ v, fmul v v) <$> d).

(** The mean squared error between two arrays: the mean, over the elements
    of their difference, of the squares. *)
Definition mean_squared_error (a b : ndarray R) : result R :=
  d ← np_sub a b;
  Ok (fdiv (sum_of_squares (data d)) (fof_nat (length (data d)))).

(** The casts to float of the axis sizes of [s] multiply without rounding:
    the product of the casts of the sizes of the last axes is the cast of
    their product. *)
Fixpoint exact_sizes (s : list nat) : Prop :=
  match s with
  | [] => fof_nat 1 = fone
  | d :: s' =>
      fof_nat (d * size_of s') = fmul (fof_nat d) (fof_nat (size_of s'))
      ∧ exact_sizes s'
  end.

(** An axis of size [c] broadcasts to size [t]. *)
Definition broadcasts_to (t c : nat) : Prop := c = t ∨ c = 1.

(** What a call of [display_image] that got as far as [plt.imshow] with
    the array [img] does: when [plt.imshow] returns, [plt.show] is called;
    when it raises, the exception propagates and [plt.show] is not called. *)
Definition imshow_outcome (plt_imshow : ndarray R → result unit)
    (w : world R) (img : ndarray R) : result unit * world R :=
  match plt_imshow img with
  | Ok _ =>
      (Ok tt, World (heap w) (get_loss_and_gradients w)
                (trace w ++ [EvFigure; EvImshow img; EvShow]))
  | Raise e =>
      (Raise e, World (heap w) (get_loss_and_gradients w)
                  (trace w ++ [EvFigure; EvImshow img]))
  end.
End Vocabulary.

(** ** A toy instance

    Integer pixels, a model whose final layer and whose prediction are the
    identity, and forward differences in place of automatic differentiation.
    It is used to run the script on concrete inputs. *)

#[global] Instance Z_arith : Arith Z := {|
  fzero := 0%Z;
  fone := 1%Z;
  fadd := Z.add;
  fsub := Z.sub;
  fmul := Z.mul;
  fdiv := Z.div;
  fabs := Z.abs;
  fleb := Z.leb;
  fof_nat := Z.of_nat
|}.

Definition toy_gradients (loss : sym Z Z) : sym Z (ndarray Z) :=
  λ x,
    l0 ← loss x;
    ds ← mapM (λ i,
                 l1 ← loss (Ndarray (shape x) (alter (Z.add 1) i (data x)));
                 Ok (l1 - l0)%Z)
              (seq 0 (length (data x)));
    Ok (Ndarray (shape x) ds).

Definition toy_epsilon : Z := 1%Z.

Definition toy_sink : ndarray Z := Ndarray [1; 1; 2; 1] [40%Z; 80%Z].
Definition toy_bathtub : ndarray Z := Ndarray [1; 1; 2; 1] [10%Z; 20%Z].

Definition toy_load_image (path : string) : result (ndarray Z) :=
  if decide (path = SINK_IMAGE) then Ok toy_sink
  else if decide (path = BATHTUB_IMAGE) then Ok toy_bathtub
  else Raise (OtherError "FileNotFoundError").

Definition toy_wrapper : DepthModelWrapper Z unit := {|
  initialize_model := Ok tt;
  load_image := toy_load_image;
  predict := λ _ a, Ok a;
  get_final_layer := λ _, Ok (λ x, Ok x)
|}.

(** The same wrapper on a machine where the sink image is missing, where
    the bathtub image is missing, and with a model whose prediction fails. *)
Definition no_sink_wrapper : DepthModelWrapper Z unit := {|
  initialize_model := Ok tt;
  load_image := λ path,
    if decide (path = SINK_IMAGE) then Raise (OtherError "FileNotFoundError")
    else toy_load_image path;
  predict := λ _ a, Ok a;
  get_final_layer := λ _, Ok (λ x, Ok x)
|}.

Definition no_bathtub_wrapper : DepthModelWrapper Z unit := {|
  initialize_model := Ok tt;
  load_image := λ path,
    if decide (path = BATHTUB_IMAGE) then Raise (OtherError "FileNotFoundError")
    else toy_load_image path;
  predict := λ _ a, Ok a;
  get_final_layer := λ _, Ok (λ x, Ok x)
|}.

Definition failing_predict_wrapper : DepthModelWrapper Z unit := {|
  initialize_model := Ok tt;
  load_image := toy_load_image;
  predict := λ _ _, Raise (OtherError "InvalidArgumentError");
  get_final_layer := λ _, Ok (λ x, Ok x)
|}.

(** A differentiable toy function given directly: the loss is the sum of the
    squares and the gradient twice the input. *)
Definition toy_quadratic_loss (x : ndarray Z) : ndarray Z :=
  Ndarray [] [tf_sum (tf_square x)].

Definition toy_quadratic_grad (x : ndarray Z) : ndarray Z := np_scale 2%Z x.

Definition toy_quadratic : kfunction Z :=
  λ inputs,
    match inputs with
    | [x] => Ok [toy_quadratic_loss x; toy_quadratic_grad x]
    | _ => Raise ValueError
    end.

Definition toy_vector : ndarray Z := Ndarray [2] [1%Z; 2%Z].

(** An interpreter holding [toy_vector], with the global bound to
    [toy_quadratic]. *)
Definition toy_world : world Z := World [toy_vector] (Some toy_quadratic) [].

(** Images of one row and two columns, in grey, in colour, with an alpha
    channel, and without any channel. *)
Definition gray_image : ndarray Z := Ndarray [1; 2; 1] [5%Z; 7%Z].
Definition rgb_image : ndarray Z :=
  Ndarray [1; 2; 3] [1%Z; 2%Z; 3%Z; 4%Z; 5%Z; 6%Z].
Definition rgba_image : ndarray Z :=
  Ndarray [1; 2; 4] [1%Z; 2%Z; 3%Z; 4%Z; 5%Z; 6%Z; 7%Z; 8%Z].
Definition no_channel_image : ndarray Z := Ndarray [1; 2; 0] [].

(** A batch of one grey image and a batch of one colour image, as a model
    could return them. *)
Definition gray_batch : ndarray Z := Ndarray [1; 1; 2; 1] [40%Z; 80%Z].
Definition rgb_batch : ndarray Z :=
  Ndarray [1; 1; 2; 3] [1%Z; 2%Z; 3%Z; 4%Z; 5%Z; 6%Z].

(** An interpreter holding a colour batch and a grey batch. *)
Definition display_world : world Z := World [rgb_batch; gray_batch] None [].

(** The loss of the toy model against the bathtub image. *)
Definition toy_final_layer : sym Z (ndarray Z) := λ x, Ok x.
Definition toy_loss : sym Z Z := loss_of toy_final_layer toy_bathtub.

(** A stand-in for the framework's checks when the graph is built: the
    final layer is given the static shape it has on the toy images, and the
    target must broadcast against it. *)
Definition toy_compile (model : unit)
    (final_layer_output : sym Z (ndarray Z)) (goal_output : ndarray Z)
  : result unit :=
  v ← final_layer_output (np_zeros [1; 1; 2; 1]);
  broadcast_shape (shape v) (shape goal_output);;
  Ok tt.

(** A stand-in for [plt.imshow]: it draws an array of shape (M, N),
    (M, N, 3) or (M, N, 4) that is not empty, and raises on any other. *)
Definition toy_imshow {R} (image : ndarray R) : result unit :=
  match shape image with
  | [h; w] =>
      if decide (h = 0 ∨ w = 0) then Raise ValueError else Ok tt
  | [h; w; c] =>
      if decide (c = 3 ∨ c = 4) then
        if decide (h = 0 ∨ w = 0) then Raise ValueError else Ok tt
      else Raise (OtherError "TypeError")
  | _ => Raise (OtherError "TypeError")
  end.

(** A wrapper whose prediction has a shape the final layer does not
    broadcast against. *)
Definition mismatched_target : ndarray Z :=
  Ndarray [1; 1; 3; 1] [10%Z; 20%Z; 30%Z].

Definition mismatched_predict_wrapper : DepthModelWrapper Z unit := {|
  initialize_model := Ok tt;
  load_image := toy_load_image;
  predict := λ _ _, Ok mismatched_target;
  get_final_layer := λ _, Ok (λ x, Ok x)
|}.

(** The toy script: three iterations with step size 2. *)
Abbreviation toy_run depth_model_wrapper :=
  (generate_adversarial_example toy_gradients toy_epsilon toy_compile
     toy_imshow depth_model_wrapper 3%Z 2%Z initial_world).

(** ** More toy instances *)

(** The value of a result, or a default. *)
Definition value_or {A} (d : A) (r : result A) : A :=
  match r with
  | Ok a => a
  | Raise _ => d
  end.

(** A compiled function that rejects an input with a negative entry. *)
Definition picky_quadratic : kfunction Z :=
  λ inputs,
    match inputs with
    | [x] =>
        if bool_decide (Forall (λ v, (0 ≤ v)%Z) (data x))
        then Ok [toy_quadratic_loss x; toy_quadratic_grad x]
        else Raise (OtherError "InvalidArgumentError")
    | _ => Raise ValueError
    end.

Definition picky_world : world Z := World [toy_vector] (Some picky_quadratic) [].

(** An array of rank 4 with 2 on its third axis, and an interpreter holding
    a depth map that lacks the channel axis. *)
Definition rank4_image : ndarray Z :=
  Ndarray [1; 2; 2; 2] [1%Z; 2%Z; 3%Z; 4%Z; 5%Z; 6%Z; 7%Z; 8%Z].
Definition flat_depth : ndarray Z := Ndarray [1; 1; 2] [40%Z; 80%Z].
Definition flat_depth_world : world Z := World [flat_depth] None [].

(** Differentiation given directly, for the sum of squares and for a
    constant. *)
Definition analytic_gradients (loss : sym Z Z) : sym Z (ndarray Z) :=
  λ x, Ok (np_scale 2%Z x).
Definition zero_gradients (loss : sym Z Z) : sym Z (ndarray Z) :=
  λ x, Ok (np_zeros (shape x)).

Definition analytic_function : kfunction Z :=
  K_function toy_loss (gradients_of analytic_gradients toy_epsilon toy_loss).
Definition analytic_loss_at (x : ndarray Z) : ndarray Z :=
  Ndarray [] [value_or 0%Z (toy_loss x)].
Definition analytic_gradient_at (x : ndarray Z) : ndarray Z :=
  value_or x (gradients_of analytic_gradients toy_epsilon toy_loss x).

(** A batch of one colour image with one axis too many, and a batch of
    one colour image of height zero. *)
Definition rank5_batch : ndarray Z :=
  Ndarray [1; 1; 2; 3; 2]
    [1%Z; 2%Z; 3%Z; 4%Z; 5%Z; 6%Z; 7%Z; 8%Z; 9%Z; 10%Z; 11%Z; 12%Z].
Definition flat_batch : ndarray Z := Ndarray [1; 0; 2; 3] [].
Definition odd_display_world : world Z := World [rank5_batch; flat_batch] None [].

(** ** Floating-point pixels

    The binary64 numbers of IEEE 754, with round-to-nearest operations: the
    arithmetic numpy uses by default. Its order is not total ([NaN] compares
    with nothing) and its operations round. *)

Section FloatToys.
Import PrimFloat.

Definition float_arith : Arith float := {|
  fzero := 0%float;
  fone := 1%float;
  fadd := add;
  fsub := sub;
  fmul := mul;
  fdiv := div;
  fabs := abs;
  fleb := leb;
  fof_nat := λ n, of_uint63 (Uint63.of_Z (Z.of_nat n))
|}.

(** A compiled function whose loss is zero and whose gradient is one
    everywhere, and an interpreter holding an image of one pixel of value
    1, with the global bound to it. *)
Definition unit_gradient_loss (x : ndarray float) : ndarray float :=
  Ndarray [] [0]%float.
Definition unit_gradient_grad (x : ndarray float) : ndarray float :=
  Ndarray (shape x) (replicate (length (data x)) 1%float).
Definition unit_gradient : kfunction float :=
  λ inputs,
    match inputs with
    | [x] => Ok [unit_gradient_loss x; unit_gradient_grad x]
    | _ => Raise ValueError
    end.
Definition float_pixel : ndarray float := Ndarray [1] [1]%float.
Definition float_world : world float :=
  World [float_pixel] (Some unit_gradient) [].

(** A final layer that is the identity, an activation of two elements and
    a batch of three targets for it. *)
Definition float_final_layer : sym float (ndarray float) := λ x, Ok x.
Definition float_activation : ndarray float :=
  Ndarray [1; 1; 2; 1] [1; 2]%float.
Definition float_targets : ndarray float :=
  Ndarray [3; 1; 2; 1] [0; 0; 2; 4; 4; 5]%float.
Definition float_target : ndarray float :=
  Ndarray [1; 1; 2; 1] [0; 4]%float.

(** Raw gradients given directly: an ordinary one, one with a [NaN] entry,
    and an empty one. *)
Definition float_epsilon : float := 1e-7.
Definition float_loss : sym float float := λ _, Ok 0%float.
Definition float_gradient : ndarray float := Ndarray [2] [3; -1]%float.
Definition nan_gradient : ndarray float := Ndarray [2] [nan; 1]%float.
Definition empty_gradient : ndarray float := Ndarray [0] [].
Definition gradients_fixed (g : ndarray float) (loss : sym float float)
  : sym float (ndarray float) := λ _, Ok g.
End FloatToys.

(** * Properties *)

(** ** Indexing and [to_multichannel] *)

Section IndexingFacts.
Context {R : Type}.
Implicit Types (l : list R) (image : ndarray R).

Lemma length_take_blocks_1 n c l :
  0 < c → length l = n * c → length (take_blocks n c 1 l) = n.
Proof.
  intros Hc. revert l. induction n as [|n IH]; intros l Hl; [done|].
  cbn [take_blocks]. rewrite length_app, length_take, IH.
  - rewrite Hl. lia.
  - rewrite length_drop, Hl. lia.
Qed.

Lemma take_blocks_1_lookup n c l p :
  0 < c → length l = n * c → p < n →
  take_blocks n c 1 l !! p = l !! (p * c).
Proof.
  intros Hc. revert l p. induction n as [|n IH]; intros l p Hl Hp; [lia|].
  cbn [take_blocks]. destruct l as [|x l]; [cbn in Hl; lia|].
  destruct p as [|p]; [done|].
  assert (Hd : length (drop c (x :: l)) = n * c).
  { rewrite length_drop, Hl. lia. }
  change (take 1 (x :: l)) with [x]. cbn [app].
  change ((x :: take_blocks n c 1 (drop c (x :: l))) !! S p)
    with (take_blocks n c 1 (drop c (x :: l)) !! p).
  rewrite IH by (done || lia). rewrite lookup_drop. f_equal; lia.
Qed.

Lemma length_triple_blocks_1 n l :
  length l = n → length (triple_blocks n 1 l) = n * 3.
Proof.
  revert l. induction n as [|n IH]; intros l Hl; [done|].
  destruct l as [|x l]; [done|]. cbn in Hl.
  cbn [triple_blocks]. change (take 1 (x :: l)) with [x].
  change (drop 1 (x :: l)) with l. cbn. rewrite IH by lia. done.
Qed.

Lemma triple_blocks_1_lookup n l p k :
  length l = n → p < n → k < 3 →
  triple_blocks n 1 l !! (p * 3 + k) = l !! p.
Proof.
  revert l p. induction n as [|n IH]; intros l p Hl Hp Hk; [lia|].
  destruct l as [|x l]; [done|]. cbn in Hl.
  cbn [triple_blocks]. change (take 1 (x :: l)) with [x].
  change (drop 1 (x :: l)) with l. cbn [app].
  destruct p as [|p].
  - destruct k as [|[|[|k]]]; cbn; (done || lia).
  - replace (S p * 3 + k) with (S (S (S (p * 3 + k)))) by lia.
    cbn. apply IH; lia.
Qed.

(** A 3-channel image comes back as it is. *)
Lemma to_multichannel_3 image :
  shape image !! 2 = Some 3 → to_multichannel image = Ok image.
Proof.
  intros H3. unfold to_multichannel, shape2. rewrite H3. cbn.
  by destruct (decide (3 = 3)).
Qed.

(** Whatever succeeds has 3 on its third axis. *)
Lemma to_multichannel_shape image out :
  to_multichannel image = Ok out → shape out !! 2 = Some 3.
Proof.
  unfold to_multichannel, shape2, getitem_all_all_0, stack3_axis2.
  destruct image as [[|h [|w [|c rest]]] d]; cbn; try discriminate.
  destruct (decide (c = 3)) as [->|Hc]; cbn.
  - by intros [= <-].
  - destruct (decide (c = 0)); cbn; [discriminate|]. by intros [= <-].
Qed.

(** An image with [c] channels, [c] neither 0 nor 3: channel 0 is kept and
    repeated three times. *)
Lemma to_multichannel_broadcast image h w c :
  shape image = [h; w; c] → well_formed image → c ≠ 3 → 0 < c →
  ∃ out,
    to_multichannel image = Ok out
    ∧ shape out = [h; w; 3]
    ∧ well_formed out
    ∧ ∀ i j k, i < h → j < w → k < 3 →
        is_Some (pixel image i j 0) ∧ pixel out i j k = pixel image i j 0.
Proof.
  destruct image as [s d]. cbn. intros -> Hwf Hc3 Hc0.
  unfold well_formed in Hwf. cbn in Hwf.
  assert (Hlen : length d = h * w * c) by lia.
  unfold to_multichannel, shape2, getitem_all_all_0, stack3_axis2. cbn.
  destruct (decide (c = 3)); [done|].
  destruct (decide (c = 0)); [lia|]. cbn.
  eexists. split; [done|]. cbn [shape data size_of foldr].
  rewrite !Nat.mul_1_r.
  assert (Hsl : length (take_blocks (h * w) c 1 d) = h * w)
    by (apply length_take_blocks_1; lia).
  split; [done|]. split.
  { unfold well_formed. cbn. rewrite length_triple_blocks_1 by done. lia. }
  intros i j k Hi Hj Hk. unfold pixel. cbn.
  assert (Hp : i * w + j < h * w) by nia.
  rewrite !decide_True by lia.
  rewrite triple_blocks_1_lookup by done.
  rewrite take_blocks_1_lookup by (done || lia).
  rewrite Nat.add_0_r. split; [|done].
  apply lookup_lt_is_Some. nia.
Qed.

(** C5. [to_multichannel] returns an image whose channel dimension is 3
    unchanged, so applying it again changes nothing (this holds from any
    image on); and from a 1-channel image it makes a 3-channel image of the
    same height and width whose three channels are the single channel of
    the input. *)
Theorem to_multichannel_three_and_one image :
  (shape image !! 2 = Some 3 → to_multichannel image = Ok image)
  ∧ (to_multichannel image ≫= to_multichannel) = to_multichannel image
  ∧ (∀ h w, shape image = [h; w; 1] → well_formed image →
      ∃ out,
        to_multichannel image = Ok out
        ∧ shape out = [h; w; 3]
        ∧ well_formed out
        ∧ ∀ i j k, i < h → j < w → k < 3 →
            is_Some (pixel image i j 0)
            ∧ pixel out i j k = pixel image i j 0).
Proof.
  split; [apply to_multichannel_3|]. split.
  - destruct (to_multichannel image) as [out|e] eqn:Hout; [|done].
    cbn. by eapply to_multichannel_3, to_multichannel_shape.
  - intros h w Hs Hwf. eapply to_multichannel_broadcast; (done || lia).
Qed.

(** C10, amended. From an image with [c] channels, [c] at least 1 and
    other than 3 (2 or 4 for instance), [to_multichannel] makes, without
    raising, a 3-channel image of the same height and width whose three
    channels are channel 0 of the input: nothing of the other channels is
    in the result. *)
Theorem to_multichannel_keeps_channel_0 image h w c :
  shape image = [h; w; c] → well_formed image → c ≠ 3 → 0 < c →
  ∃ out,
    to_multichannel image = Ok out
    ∧ shape out = [h; w; 3]
    ∧ well_formed out
    ∧ ∀ i j k, i < h → j < w → k < 3 →
        is_Some (pixel image i j 0) ∧ pixel out i j k = pixel image i j 0.
Proof. apply to_multichannel_broadcast. Qed.
(** *** Further facts on [to_multichannel] *)

Lemma length_take_blocks n stride m l :
  m ≤ stride → length l = n * stride →
  length (take_blocks n stride m l) = n * m.
Proof.
  intros Hm. revert l. induction n as [|n IH]; intros l Hl; [done|].
  cbn [take_blocks]. rewrite length_app, length_take, IH.
  - rewrite Hl. lia.
  - rewrite length_drop, Hl. lia.
Qed.

Lemma length_triple_blocks n m l :
  length l = n * m → length (triple_blocks n m l) = n * (3 * m).
Proof.
  revert l. induction n as [|n IH]; intros l Hl; [done|].
  cbn [triple_blocks]. rewrite !length_app, length_take, IH.
  - rewrite Hl. lia.
  - rewrite length_drop, Hl. lia.
Qed.

(** X4. [to_multichannel] raises nothing but [IndexError], and raises it
    exactly on an array with fewer than 3 axes (a 2-dimensional grey image,
    say: [image.shape[2]] does not exist) and on an array whose third axis
    is empty ([image[:,:,0]] does not exist). *)
Theorem to_multichannel_raises_iff image :
  (∀ e, to_multichannel image = Raise e → e = IndexError)
  ∧ (to_multichannel image = Raise IndexError
     ↔ length (shape image) < 3 ∨ shape image !! 2 = Some 0).
Proof.
  unfold to_multichannel, shape2, getitem_all_all_0, stack3_axis2.
  destruct image as [[|h [|w [|c rest]]] d]; cbn;
    try (split; [by intros e [= <-]|split; [intros _; left; lia|done]]).
  destruct (decide (c = 3)) as [->|Hc3]; cbn.
  { split; [done|]. split; [done|]. intros [?|[=]]. lia. }
  destruct (decide (c = 0)) as [->|Hc0]; cbn.
  - split; [by intros e [= <-]|]. split; [by right|done].
  - split; [done|]. split; [done|]. intros [?|[=]]; [lia|done].
Qed.

(** X5. On a well-formed array of any rank, whatever [to_multichannel]
    returns is again well-formed, has 3 on its third axis and the input's
    sizes on all the other axes. *)
Theorem to_multichannel_well_formed image out :
  well_formed image →
  to_multichannel image = Ok out →
  ∃ h w c rest,
    shape image = h :: w :: c :: rest
    ∧ shape out = h :: w :: 3 :: rest
    ∧ well_formed out.
Proof.
  unfold to_multichannel, shape2, getitem_all_all_0, stack3_axis2, well_formed.
  destruct image as [[|h [|w [|c rest]]] d]; cbn; try done.
  fold (size_of rest). intros Hwf.
  destruct (decide (c = 3)) as [->|Hc3]; cbn.
  { intros [= <-]. exists h, w, 3, rest. cbn. by fold (size_of rest). }
  destruct (decide (c = 0)) as [->|Hc0]; cbn; [done|].
  intros [= <-]. exists h, w, c, rest. split; [done|]. split; [done|].
  cbn. fold (size_of rest).
  rewrite length_triple_blocks.
  - lia.
  - apply length_take_blocks; [nia|lia].
Qed.

End IndexingFacts.

(** ** Arithmetic on arrays of one shape *)

Section NumpyFacts.
Context {R : Type} `{Arith R}.
Implicit Types (l d : list R) (a b : ndarray R).

Lemma chunks_spec m n l :
  length l = n * m →
  concat (chunks m n l) = l ∧ Forall (λ c, length c = m) (chunks m n l).
Proof.
  revert l. induction n as [|n IH]; intros l Hl.
  - destruct l; [done|cbn in Hl; lia].
  - cbn [chunks concat].
    destruct (IH (drop m l)) as [Hc Hf].
    { rewrite length_drop, Hl. lia. }
    split.
    + rewrite Hc. apply take_drop.
    + constructor; [|done]. rewrite length_take, Hl. lia.
Qed.

Lemma broadcast_data_same s d :
  length d = size_of s → broadcast_data s s d = Some d.
Proof.
  revert d. induction s as [|t s IH]; intros d Hd; [done|].
  cbn [broadcast_data]. rewrite decide_True by done.
  cbn [size_of foldr] in Hd. fold (size_of s) in Hd.
  destruct (chunks_spec (size_of s) t d Hd) as [Hc Hf].
  assert (Hm : mapM (broadcast_data s s) (chunks (size_of s) t d)
               = Some (chunks (size_of s) t d)).
  { apply mapM_Some. clear Hc Hd.
    induction (chunks (size_of s) t d) as [|c cs IHcs]; [constructor|].
    inversion Hf; subst. constructor; auto. }
  rewrite Hm. cbn. by rewrite Hc.
Qed.

Lemma broadcast_to_same s b :
  shape b = s → well_formed b → broadcast_to s b = Ok (data b).
Proof.
  intros <- Hwf. unfold broadcast_to.
  rewrite decide_True by done. rewrite Nat.sub_diag. cbn.
  by rewrite broadcast_data_same.
Qed.

Lemma broadcast_dims_same s : broadcast_dims s s = Some s.
Proof.
  induction s as [|x s IH]; [done|]. cbn. rewrite IH. cbn.
  by rewrite decide_True.
Qed.

Lemma broadcast_shape_same s : broadcast_shape s s = Ok s.
Proof.
  unfold broadcast_shape. by rewrite broadcast_dims_same, reverse_involutive.
Qed.

(** [a -= b] on arrays of one shape is the element-wise subtraction. *)
Lemma np_isub_same a b :
  shape b = shape a → well_formed b →
  np_isub a b = Ok (Ndarray (shape a) (zip_with fsub (data a) (data b))).
Proof.
  intros Hs Hwf. unfold np_isub. by rewrite broadcast_to_same.
Qed.

Lemma np_binary_same op a b :
  shape b = shape a → well_formed a → well_formed b →
  np_binary op a b = Ok (Ndarray (shape a) (zip_with op (data a) (data b))).
Proof.
  intros Hs Ha Hb. unfold np_binary. rewrite Hs, broadcast_shape_same. cbn.
  rewrite !broadcast_to_same by done. done.
Qed.

Lemma np_scale_well_formed s a : well_formed a → well_formed (np_scale s a).
Proof. unfold well_formed. cbn. by rewrite length_fmap. Qed.

(** *** Broadcasting *)

Lemma length_chunks m n l : length (chunks m n l) = n.
Proof. revert l. induction n as [|n IH]; intros l; cbn; [done|]. by rewrite IH. Qed.

Lemma length_concat_same (m : nat) (ks : list (list R)) :
  Forall (λ k, length k = m) ks → length (concat ks) = length ks * m.
Proof.
  induction 1 as [|k ks Hk _ IH]; [done|].
  cbn. rewrite length_app, IH, Hk. done.
Qed.

Lemma size_of_app s1 s2 : size_of (s1 ++ s2) = size_of s1 * size_of s2.
Proof.
  induction s1 as [|x s1 IH].
  - cbn [app]. change (size_of []) with 1. lia.
  - cbn [app]. change (size_of (x :: s1 ++ s2)) with (x * size_of (s1 ++ s2)).
    change (size_of (x :: s1)) with (x * size_of s1). rewrite IH. lia.
Qed.

Lemma size_of_ones k : size_of (replicate k 1) = 1.
Proof.
  induction k as [|k IH]; [done|]. cbn [replicate].
  change (size_of (1 :: replicate k 1)) with (1 * size_of (replicate k 1)). lia.
Qed.

Lemma size_of_reverse s : size_of (reverse s) = size_of s.
Proof.
  induction s as [|x s IH]; [done|].
  rewrite reverse_cons, size_of_app, IH.
  change (size_of (x :: s)) with (x * size_of s).
  change (size_of [x]) with (x * 1). lia.
Qed.

(** Data of shape [src] broadcasts to every shape [tgt] of the same rank
    each of whose axes its axes broadcast to, and fills it. *)
Lemma broadcast_data_total tgt src : ∀ d,
  Forall2 broadcasts_to tgt src →
  length d = size_of src →
  ∃ d', broadcast_data tgt src d = Some d' ∧ length d' = size_of tgt.
Proof.
  intros d Hbc. revert d.
  induction Hbc as [|t c tgt src Htc _ IH]; intros d Hd.
  { by exists d. }
  cbn [broadcast_data]. cbn [size_of foldr] in *.
  fold (size_of src) in *. fold (size_of tgt).
  destruct (decide (c = t)) as [->|Hne].
  - destruct (chunks_spec (size_of src) t d Hd) as [_ Hf].
    assert (∃ ks, mapM (broadcast_data tgt src) (chunks (size_of src) t d)
                  = Some ks
                  ∧ length ks = length (chunks (size_of src) t d)
                  ∧ Forall (λ k, length k = size_of tgt) ks)
      as (ks & Hks & Hlen & Hall).
    { clear Hd. induction Hf as [|k cs Hk _ IHcs].
      - by exists [].
      - destruct (IH k Hk) as (k' & Hk' & Hlk').
        destruct IHcs as (ks & Hks & Hlen & Hall).
        exists (k' :: ks). cbn. rewrite Hk'. cbn. rewrite Hks. cbn.
        split; [done|]. split; [by rewrite Hlen|]. by constructor. }
    rewrite Hks. cbn. eexists. split; [done|].
    rewrite (length_concat_same (size_of tgt)) by done.
    by rewrite Hlen, length_chunks.
  - destruct Htc as [Heq| ->]; [done|]. rewrite decide_True by done.
    destruct (IH d) as (r & Hr & Hlr); [lia|].
    rewrite Hr. cbn. eexists. split; [done|].
    rewrite (length_concat_same (size_of tgt)).
    + by rewrite length_replicate.
    + by apply Forall_replicate.
Qed.

Lemma broadcasts_to_ones (s : list nat) :
  Forall2 broadcasts_to s (replicate (length s) 1).
Proof. induction s; cbn; constructor; [by right|done]. Qed.

Lemma broadcasts_to_self (s : list nat) : Forall2 broadcasts_to s s.
Proof. induction s; constructor; [by left|done]. Qed.

(** The common shape of two operands has the rank of the longer, and each
    operand, padded with axes of size 1, broadcasts to it axis by axis
    (shapes are reversed here, so the padding comes last). *)
Lemma broadcast_dims_spec : ∀ r1 r2 r,
  broadcast_dims r1 r2 = Some r →
  length r = length r1 `max` length r2
  ∧ Forall2 broadcasts_to r (r1 ++ replicate (length r - length r1) 1)
  ∧ Forall2 broadcasts_to r (r2 ++ replicate (length r - length r2) 1).
Proof.
  induction r1 as [|x r1 IH]; intros r2 r Hr.
  { cbn in Hr. injection Hr as <-. cbn. rewrite Nat.sub_0_r, Nat.sub_diag.
    cbn. rewrite app_nil_r.
    split; [done|]. split; [apply broadcasts_to_ones|apply broadcasts_to_self]. }
  destruct r2 as [|y r2].
  { cbn in Hr. injection Hr as <-. cbn [app length].
    rewrite Nat.sub_0_r, Nat.sub_diag. cbn [replicate]. rewrite app_nil_r.
    split; [lia|].
    split; [apply broadcasts_to_self|apply (broadcasts_to_ones (x :: r1))]. }
  cbn [broadcast_dims] in Hr.
  destruct (broadcast_dims r1 r2) as [rest|] eqn:Hrest; [|done].
  destruct (IH _ _ Hrest) as (Hlen & H1 & H2). cbn in Hr.
  assert (∀ z, broadcasts_to z x → broadcasts_to z y →
            length (z :: rest) = length (x :: r1) `max` length (y :: r2)
            ∧ Forall2 broadcasts_to (z :: rest)
                ((x :: r1) ++ replicate (length (z :: rest) - length (x :: r1)) 1)
            ∧ Forall2 broadcasts_to (z :: rest)
                ((y :: r2) ++ replicate (length (z :: rest) - length (y :: r2)) 1))
    as Hcons.
  { intros z Hx Hy. cbn [length app Nat.sub]. split; [lia|].
    split; by constructor. }
  destruct (decide (x = y)) as [->|Hxy].
  { injection Hr as <-. apply Hcons; by left. }
  destruct (decide (x = 1)) as [->|Hx1].
  { injection Hr as <-. apply Hcons; [by right|by left]. }
  destruct (decide (y = 1)) as [->|Hy1]; [|done].
  injection Hr as <-. apply Hcons; [by left|by right].
Qed.

(** An operand broadcasts to the common shape, and fills it. *)
Lemma broadcast_to_common s1 s2 s a :
  broadcast_shape s1 s2 = Ok s →
  shape a = s1 ∨ shape a = s2 →
  well_formed a →
  ∃ d, broadcast_to s a = Ok d ∧ length d = size_of s.
Proof.
  unfold broadcast_shape.
  destruct (broadcast_dims (reverse s1) (reverse s2)) as [r|] eqn:Hr; [|done].
  intros [= <-] Ha Hwf.
  destruct (broadcast_dims_spec _ _ _ Hr) as (Hlen & H1 & H2).
  rewrite !length_reverse in *.
  assert (Hbc : Forall2 broadcasts_to (reverse r)
                  (replicate (length r - length (shape a)) 1 ++ shape a)).
  { destruct Ha as [Ha|Ha]; rewrite Ha.
    - apply Forall2_reverse in H1.
      by rewrite reverse_app, reverse_replicate, reverse_involutive in H1.
    - apply Forall2_reverse in H2.
      by rewrite reverse_app, reverse_replicate, reverse_involutive in H2. }
  unfold broadcast_to. rewrite length_reverse.
  rewrite decide_True by (destruct Ha as [-> | ->]; lia).
  destruct (broadcast_data_total _ _ (data a) Hbc) as (d & Hd & Hld).
  { by rewrite size_of_app, size_of_ones, Nat.mul_1_l. }
  rewrite Hd. by exists d.
Qed.

(** An element-wise operation on two well-formed arrays succeeds exactly
    when their shapes have a common shape; the result has that shape and
    holds the operation applied to the operands broadcast to it. *)
Lemma np_binary_broadcast op a b :
  well_formed a → well_formed b →
  match broadcast_shape (shape a) (shape b) with
  | Ok s =>
      ∃ da db,
        broadcast_to s a = Ok da ∧ broadcast_to s b = Ok db
        ∧ length da = size_of s ∧ length db = size_of s
        ∧ np_binary op a b = Ok (Ndarray s (zip_with op da db))
  | Raise e => e = ValueError ∧ np_binary op a b = Raise ValueError
  end.
Proof.
  intros Ha Hb. unfold np_binary.
  destruct (broadcast_shape (shape a) (shape b)) as [s|e] eqn:Hs.
  - destruct (broadcast_to_common _ _ s a Hs) as (da & Hda & Hla); [by left|done|].
    destruct (broadcast_to_common _ _ s b Hs) as (db & Hdb & Hlb); [by right|done|].
    exists da, db. cbn. rewrite Hda, Hdb. done.
  - unfold broadcast_shape in Hs.
    destruct (broadcast_dims _ _); [done|]. by injection Hs as <-.
Qed.
End NumpyFacts.

(** ** Running the script *)

Section ScriptFacts.
Context {R : Type} `{Arith R} {Model : Type}.
Variable K_gradients : sym R R → sym R (ndarray R).
Variable K_epsilon : R.
Variable K_compile : Model → sym R (ndarray R) → ndarray R → result unit.
Variable plt_imshow : ndarray R → result unit.
Implicit Types (w : world R) (a b x : ndarray R) (r l : loc).

Lemma run_bind {A B} (m : M A) (f : A → M B) w :
  (m ≫= f) w
  = match m w with
    | (Ok a, w') => f a w'
    | (Raise e, w') => (Raise e, w')
    end.
Proof. reflexivity. Qed.

Lemma run_bind_ok {A B} (m : M A) (f : A → M B) w v w' :
  m w = (Ok v, w') → (m ≫= f) w = f v w'.
Proof. intros Hm. by rewrite run_bind, Hm. Qed.

(** Symbolic execution of the primitive steps. *)
Ltac exec :=
  unfold mbind, M_bind, mret, M_ret, lift, emit, store, deref, read_global,
    alloc, bind_global;
  cbn [heap trace get_loss_and_gradients].

(** *** The loop of [gradient_ascent] *)

Lemma image_after_shape grad s t x0 :
  shape (image_after grad s t x0) = shape x0.
Proof. induction t; cbn; done. Qed.

Lemma image_after_well_formed grad s t x0 :
  well_formed x0 →
  (∀ x, shape x = shape x0 → well_formed x →
        shape (grad x) = shape x0 ∧ well_formed (grad x)) →
  well_formed (image_after grad s t x0).
Proof.
  intros Hwf Hg. induction t as [|t IH]; [done|].
  destruct (Hg _ (image_after_shape grad s t x0) IH) as [Hs Hw].
  unfold well_formed in *. cbn [image_after elementwise data shape np_scale].
  rewrite length_zip_with, length_fmap, IH, Hw, Hs, image_after_shape. lia.
Qed.

(** One iteration: evaluate, print, update in place. *)
Lemma loop_body_run f loss grad r (s : R) (i : Z) w x :
  get_loss_and_gradients w = Some f →
  heap w !! r = Some x →
  well_formed x →
  computes f loss grad (shape x) →
  ('(loss, gradients) ← retrieve_loss_and_gradients r;
   emit (EvPrint i loss);;
   isub r (np_scale s gradients)) w
  = (Ok tt,
     World (<[r := elementwise fsub x (np_scale s (grad x))]> (heap w))
           (Some f)
           (trace w ++ [EvEvaluate x; EvPrint i (loss x); EvInplaceSub r])).
Proof.
  intros Hf Hx Hwf Hc.
  destruct (Hc x eq_refl Hwf) as (Hfx & Hgs & Hgw).
  unfold retrieve_loss_and_gradients, isub. exec.
  rewrite Hf. exec. rewrite Hx. exec. rewrite Hfx. exec.
  unfold list_getitem. cbn [lookup list_lookup]. exec.
  rewrite Hx. exec.
  rewrite np_isub_same by (done || by apply np_scale_well_formed).
  exec. rewrite Hf, <- !app_assoc. done.
Qed.

Lemma loop_run f loss grad r (s : R) x0 m : ∀ k w,
  get_loss_and_gradients w = Some f →
  heap w !! r = Some (image_after grad s k x0) →
  well_formed x0 →
  computes f loss grad (shape x0) →
  for_each (Z.of_nat <$> seq k m) (λ i,
    '(loss, gradients) ← retrieve_loss_and_gradients r;
    emit (EvPrint i loss);;
    isub r (np_scale s gradients)) w
  = (Ok tt,
     World (<[r := image_after grad s (k + m) x0]> (heap w))
           (Some f)
           (trace w ++ loop_events r loss grad s x0 k m)).
Proof.
  induction m as [|m IH]; intros k w Hf Hx Hwf Hc.
  - cbn. rewrite Nat.add_0_r, list_insert_id by done.
    unfold loop_events. cbn. rewrite app_nil_r, <- Hf. by destruct w.
  - assert (Hxs : shape (image_after grad s k x0) = shape x0)
      by apply image_after_shape.
    assert (Hxw : well_formed (image_after grad s k x0)).
    { apply image_after_well_formed; [done|]. intros x Hs Hw.
      by destruct (Hc x Hs Hw) as (_ & ? & ?). }
    cbn [seq fmap list_fmap for_each].
    erewrite run_bind_ok; cycle 1.
    { eapply loop_body_run; [done..|]. by rewrite Hxs. }
    assert (Hr : r < length (heap w)) by by eapply lookup_lt_Some.
    rewrite IH; cbn [heap trace get_loss_and_gradients]; try done.
    + rewrite list_insert_insert_eq.
      replace (k + S m) with (S k + m) by lia.
      unfold loop_events. cbn. rewrite <- app_assoc. done.
    + by rewrite list_lookup_insert_eq.
Qed.

(** The whole of [gradient_ascent]: when the global is bound to a function
    that computes [loss] and [grad], the call returns its argument, the
    object holds the image after [iterations] updates, and nothing else
    has changed. *)
Lemma gradient_ascent_run f loss grad r (iterations : Z) (s : R) x0 w :
  get_loss_and_gradients w = Some f →
  heap w !! r = Some x0 →
  well_formed x0 →
  computes f loss grad (shape x0) →
  gradient_ascent r iterations s w
  = (Ok r,
     World (<[r := image_after grad s (Z.to_nat iterations) x0]> (heap w))
           (Some f)
           (trace w ++ loop_events r loss grad s x0 0 (Z.to_nat iterations))).
Proof.
  intros Hf Hx Hwf Hc. unfold gradient_ascent, range.
  erewrite run_bind_ok; [|by eapply loop_run]. done.
Qed.

(** The function [K.function] compiles computes the loss and the gradient
    it was built from, wherever these evaluate. *)
Lemma K_function_computes (loss : sym R R) (gradients : sym R (ndarray R))
    (loss_at : ndarray R → R) (gradient_at : ndarray R → ndarray R) s :
  (∀ x, shape x = s → well_formed x →
     loss x = Ok (loss_at x)
     ∧ gradients x = Ok (gradient_at x)
     ∧ shape (gradient_at x) = s ∧ well_formed (gradient_at x)) →
  computes (K_function loss gradients)
    (λ x, Ndarray [] [loss_at x]) gradient_at s.
Proof.
  intros Hev x Hs Hwf. destruct (Hev x Hs Hwf) as (Hl & Hg & Hgs & Hgw).
  unfold K_function. by rewrite Hl, Hg.
Qed.

Lemma zip_with_sub_sub (d acc g : list R) :
  (∀ u v t : R, fsub (fsub u v) t = fsub u (fadd v t)) →
  zip_with fsub (zip_with fsub d acc) g
  = zip_with fsub d (zip_with fadd acc g).
Proof.
  intros Hlaw. revert acc g.
  induction d as [|u d IH]; intros [|v acc] [|t g]; cbn; try done.
  by rewrite Hlaw, IH.
Qed.

Lemma zip_with_sub_zero (d : list R) :
  (∀ u : R, fsub u fzero = u) →
  zip_with fsub d (replicate (length d) fzero) = d.
Proof. intros Hlaw. induction d as [|u d IH]; cbn; [done|]. by rewrite Hlaw, IH. Qed.

(** With exact arithmetic the sequential updates add up. *)
Lemma image_after_accumulated grad (s : R) n x0 :
  (∀ u v t : R, fsub (fsub u v) t = fsub u (fadd v t)) →
  (∀ u : R, fsub u fzero = u) →
  well_formed x0 →
  image_after grad s n x0 = elementwise fsub x0 (accumulated grad s n x0).
Proof.
  intros Hss Hs0 Hwf. induction n as [|n IH].
  - destruct x0 as [sh d]. unfold well_formed in Hwf. cbn [shape data] in Hwf.
    unfold elementwise, accumulated, np_zeros. cbn [shape data image_after].
    by rewrite <- Hwf, zip_with_sub_zero.
  - cbn [image_after accumulated]. rewrite IH at 1.
    unfold elementwise at 1 2 3. cbn [shape data].
    by rewrite zip_with_sub_sub.
Qed.

Lemma loop_events_evaluations r loss grad (s : R) x0 m k :
  length (List.filter is_evaluateb (loop_events r loss grad s x0 k m)) = m.
Proof.
  revert k. induction m as [|m IH]; intros k; [done|].
  unfold loop_events in *. cbn. by rewrite IH.
Qed.

Lemma loop_events_updates r loss grad (s : R) x0 m k :
  length (List.filter is_inplace_subb (loop_events r loss grad s x0 k m)) = m.
Proof.
  revert k. induction m as [|m IH]; intros k; [done|].
  unfold loop_events in *. cbn. by rewrite IH.
Qed.

Lemma loop_events_length r loss grad (s : R) x0 m k :
  length (loop_events r loss grad s x0 k m) = 3 * m.
Proof.
  revert k. induction m as [|m IH]; intros k; [done|].
  unfold loop_events in *. cbn. rewrite IH. lia.
Qed.

(** C1, amended. [gradient_ascent] performs the sequential update
    [input ← input − step_size × gradient]: after the call the image object
    holds [image_after grad s n x0], which is defined by exactly that update
    applied [n] times, each subtraction done in the arithmetic of the
    pixels, the gradient of step [t] being the one the compiled function
    returns at the image produced by the first [t] updates. This holds of
    every arithmetic. In an arithmetic where [(u − v) − t = u − (v + t)]
    and [u − 0 = u], that is without rounding, the object then holds the
    initial image minus the accumulated sum of [s × gradient_t] over [t]
    from 0 to [n − 1]; in floating point the two can differ by rounding. *)
Theorem gradient_ascent_update_law f loss grad r (iterations : Z) (s : R) x0 w :
  get_loss_and_gradients w = Some f →
  heap w !! r = Some x0 →
  well_formed x0 →
  computes f loss grad (shape x0) →
  let n := Z.to_nat iterations in
  ∃ w',
    gradient_ascent r iterations s w = (Ok r, w')
    ∧ heap w' !! r = Some (image_after grad s n x0)
    ∧ (∀ t, t < n →
         f [image_after grad s t x0]
         = Ok [loss (image_after grad s t x0); grad (image_after grad s t x0)]
         ∧ image_after grad s (S t) x0
           = elementwise fsub (image_after grad s t x0)
               (np_scale s (grad (image_after grad s t x0))))
    ∧ ((∀ u v t : R, fsub (fsub u v) t = fsub u (fadd v t)) →
       (∀ u : R, fsub u fzero = u) →
       image_after grad s n x0
       = elementwise fsub x0 (accumulated grad s n x0)).
Proof.
  intros Hf Hx Hwf Hc n. eexists. split; [by eapply gradient_ascent_run|].
  cbn [heap]. split; [|split].
  - apply list_lookup_insert_eq. by eapply lookup_lt_Some.
  - intros t _. split; [|done].
    apply Hc; [apply image_after_shape|].
    apply image_after_well_formed; [done|]. intros x Hs Hw.
    by destruct (Hc x Hs Hw) as (_ & ? & ?).
  - intros Hss Hs0. by apply image_after_accumulated.
Qed.

(** C4. [gradient_ascent] stops by iteration count alone: whatever losses
    and gradients the compiled function returns, the call makes exactly
    [iterations] evaluations and [iterations] in-place updates, one of each
    per iteration and nothing else but the print between them, and then
    returns the image it was given. *)
Theorem gradient_ascent_iteration_count f loss grad r (iterations : Z)
    (s : R) x0 w :
  get_loss_and_gradients w = Some f →
  heap w !! r = Some x0 →
  well_formed x0 →
  computes f loss grad (shape x0) →
  let n := Z.to_nat iterations in
  ∃ w' evs,
    gradient_ascent r iterations s w = (Ok r, w')
    ∧ trace w' = trace w ++ evs
    ∧ evs = loop_events r loss grad s x0 0 n
    ∧ length evs = 3 * n
    ∧ length (List.filter is_evaluateb evs) = n
    ∧ length (List.filter is_inplace_subb evs) = n
    ∧ heap w' !! r = Some (image_after grad s n x0).
Proof.
  intros Hf Hx Hwf Hc n. eexists _, _.
  split; [by eapply gradient_ascent_run|]. cbn [trace heap].
  split; [done|]. split; [done|].
  split; [apply loop_events_length|].
  split; [apply loop_events_evaluations|].
  split; [apply loop_events_updates|].
  apply list_lookup_insert_eq. by eapply lookup_lt_Some.
Qed.

(** *** The loss and the normalised gradient *)

Lemma exact_sizes_prod (s : list nat) :
  exact_sizes s → foldr fmul fone (fof_nat <$> s) = fof_nat (size_of s).
Proof.
  induction s as [|d s IH]; cbn [exact_sizes]; [done|].
  intros [Hd Hs]. cbn [fmap list_fmap foldr]. rewrite IH by done.
  change (size_of (d :: s)) with (d * size_of s). by rewrite Hd.
Qed.

(** C2, amended. The loss that [generate_adversarial_example] hands to
    [K.function] is, for every input on which the final layer yields an
    array [fl], the sum of the squared element-wise differences between
    [fl] and the target, the two being broadcast to their common shape,
    divided by the product of the axis sizes of [fl], which is the number
    of elements of [fl] as long as the casts of the sizes multiply without
    rounding; that value is the first output of the compiled function.
    When the target has the shape of [fl], and more generally when the
    common shape has as many elements as [fl], the loss is the mean
    squared error. When the two shapes have no common shape, evaluating
    the loss raises. *)
Theorem loss_is_sum_of_squares_over_size
    (final_layer_output : sym R (ndarray R)) (goal_output x fl : ndarray R) :
  final_layer_output x = Ok fl →
  well_formed fl →
  well_formed goal_output →
  let divisor := foldr fmul fone (fof_nat <$> shape fl) in
  (∀ s, broadcast_shape (shape fl) (shape goal_output) = Ok s →
     ∃ dfl dg,
       broadcast_to s fl = Ok dfl
       ∧ broadcast_to s goal_output = Ok dg
       ∧ length dfl = size_of s
       ∧ length dg = size_of s
       ∧ loss_of final_layer_output goal_output x
         = Ok (fdiv (sum_of_squares (zip_with fsub dfl dg)) divisor)
       ∧ (∀ gradients gv, gradients x = Ok gv →
            K_function (loss_of final_layer_output goal_output) gradients [x]
            = Ok [Ndarray [] [fdiv (sum_of_squares (zip_with fsub dfl dg))
                                divisor]; gv])
       ∧ (size_of s = size_of (shape fl) → exact_sizes (shape fl) →
            loss_of final_layer_output goal_output x
            = mean_squared_error fl goal_output))
  ∧ (∀ e, broadcast_shape (shape fl) (shape goal_output) = Raise e →
       loss_of final_layer_output goal_output x = Raise ValueError)
  ∧ (shape goal_output = shape fl →
       loss_of final_layer_output goal_output x
       = Ok (fdiv (sum_of_squares (zip_with fsub (data fl) (data goal_output)))
               divisor))
  ∧ (exact_sizes (shape fl) → divisor = fof_nat (length (data fl))).
Proof.
  intros Hfl Hwf Hwg divisor.
  assert (Hloss : loss_of final_layer_output goal_output x
                  = (d ← np_sub fl goal_output;
                     Ok (fdiv (sum_of_squares (data d)) divisor))).
  { unfold loss_of, scale_factor, K_div, K_sum, K_square, K_sub, K_constant,
      K_prod, K_cast_shape.
    rewrite Hfl. cbn [mbind result_bind].
    by destruct (np_sub fl goal_output). }
  assert (Hdiv : exact_sizes (shape fl) → divisor = fof_nat (length (data fl))).
  { intros Hexact. unfold divisor. rewrite exact_sizes_prod by done.
    by rewrite Hwf. }
  pose proof (np_binary_broadcast fsub fl goal_output Hwf Hwg) as Hsub.
  fold (np_sub fl goal_output) in Hsub.
  split; [|split; [|split]].
  - intros s Hs. rewrite Hs in Hsub.
    destruct Hsub as (dfl & dg & Hdfl & Hdg & Hlfl & Hlg & Hsub).
    exists dfl, dg. do 4 (split; [done|]).
    assert (Hval : loss_of final_layer_output goal_output x
                   = Ok (fdiv (sum_of_squares (zip_with fsub dfl dg)) divisor)).
    { by rewrite Hloss, Hsub. }
    split; [done|]. split.
    + intros gradients gv Hg. unfold K_function. by rewrite Hval, Hg.
    + intros Hsize Hexact. rewrite Hval. unfold mean_squared_error.
      rewrite Hsub. cbn [mbind result_bind data].
      rewrite length_zip_with, Hlfl, Hlg, Nat.min_id, Hsize.
      rewrite Hdiv by done. by rewrite Hwf.
  - intros e He. rewrite He in Hsub. destruct Hsub as [_ Hsub].
    by rewrite Hloss, Hsub.
  - intros Hs. rewrite Hloss. unfold np_sub.
    by rewrite np_binary_same.
  - done.
Qed.

(** C3, amended. The divisor of the gradient normalisation is
    [max(mean(abs(gradient)), epsilon)] as the framework computes it, and
    the normalised gradient is the raw gradient divided by it. When the
    mean compares with the floor (it is a number), the divisor is the mean
    if the mean is at least the floor and the floor otherwise, so it is
    never below the floor and, the floor being positive, never zero. When
    the mean compares with nothing (it is NaN: the gradient has a NaN
    entry, or it is empty and its mean is 0/0), the divisor is that NaN,
    and it is not at least the floor. Nothing is assumed of the order but
    what is said of the mean and the floor: that they compare, that they
    are equal when each is at most the other, that the floor is at most
    itself and not at most zero. *)
Theorem normalizer_floor (loss : sym R R) (x gv : ndarray R) :
  K_gradients loss x = Ok gv →
  let mean_abs := fdiv (foldr fadd fzero (fabs <$> data gv))
                       (fof_nat (length (data gv))) in
  ∃ divisor,
    normalizer K_epsilon (K_gradients loss) x = Ok divisor
    ∧ divisor = tf_maximum mean_abs K_epsilon
    ∧ gradients_of K_gradients K_epsilon loss x
      = Ok (Ndarray (shape gv) ((λ v, fdiv v divisor) <$> data gv))
    ∧ (fleb K_epsilon mean_abs = true ∨ fleb mean_abs K_epsilon = true →
       (fleb mean_abs K_epsilon = true → fleb K_epsilon mean_abs = true →
        mean_abs = K_epsilon) →
       fleb K_epsilon K_epsilon = true →
       fleb K_epsilon fzero = false →
       (fleb K_epsilon mean_abs = true → divisor = mean_abs)
       ∧ (fleb K_epsilon mean_abs = false → divisor = K_epsilon)
       ∧ fleb K_epsilon divisor = true
       ∧ divisor ≠ fzero)
    ∧ (fleb K_epsilon mean_abs = false → fleb mean_abs K_epsilon = false →
       divisor = mean_abs ∧ fleb K_epsilon divisor = false).
Proof.
  intros Hg mean_abs.
  assert (Hn : normalizer K_epsilon (K_gradients loss) x
               = Ok (tf_maximum mean_abs K_epsilon)).
  { unfold normalizer, K_maximum, K_mean, K_abs. rewrite Hg.
    cbn [mbind result_bind]. unfold mean_abs, tf_mean, tf_sum, tf_abs.
    cbn [data]. by rewrite length_fmap. }
  exists (tf_maximum mean_abs K_epsilon).
  split; [done|]. split; [done|]. split; [|split].
  - unfold gradients_of, K_div_scalar. rewrite Hg, Hn. done.
  - intros Hcomparable Hanti Hrefl Hpos.
    assert (Hge : fleb K_epsilon (tf_maximum mean_abs K_epsilon) = true).
    { unfold tf_maximum. destruct (fleb mean_abs K_epsilon) eqn:Hle; [done|].
      by destruct Hcomparable. }
    split; [|split; [|split]].
    + intros Hle. unfold tf_maximum.
      destruct (fleb mean_abs K_epsilon) eqn:Hle'; [|done].
      symmetry. by apply Hanti.
    + intros Hlt. unfold tf_maximum.
      destruct (fleb mean_abs K_epsilon) eqn:Hle'; [done|].
      destruct Hcomparable; congruence.
    + done.
    + intros H0. rewrite H0 in Hge. congruence.
  - intros Hlt Hgt. unfold tf_maximum. by rewrite Hgt.
Qed.

(** *** What a step may change *)

#[local] Instance extends_refl (P : event R → Prop) : Reflexive (extends P).
Proof.
  intros w. split; [done|]. exists []. by rewrite app_nil_r.
Qed.

#[local] Instance extends_trans (P : event R → Prop) : Transitive (extends P).
Proof.
  intros w1 w2 w3 [Hg1 (e1 & Ht1 & Hp1)] [Hg2 (e2 & Ht2 & Hp2)].
  split; [congruence|]. exists (e1 ++ e2).
  rewrite Ht2, Ht1, app_assoc. split; [done|]. by apply Forall_app.
Qed.

#[local] Instance heap_frame_refl r : Reflexive (heap_frame (R:=R) r).
Proof. by intros w. Qed.

#[local] Instance heap_frame_trans r : Transitive (heap_frame (R:=R) r).
Proof.
  intros w1 w2 w3 [Hl1 Hf1] [Hl2 Hf2]. split; [congruence|].
  intros l Hl. by rewrite Hf2, Hf1.
Qed.

Section Always.
Context (rel : world R → world R → Prop).
Context `{!Reflexive rel, !Transitive rel}.

Lemma always_bind {A B} (m : M A) (f : A → M B) :
  always rel m → (∀ v, always rel (f v)) → always rel (m ≫= f).
Proof.
  intros Hm Hf w res w'. rewrite run_bind.
  destruct (m w) as [[v|e] w1] eqn:Hrun; intros Hres.
  - etrans; [by eapply Hm|by eapply Hf].
  - inversion Hres; subst. by eapply Hm.
Qed.

Lemma always_same {A} (m : M A) :
  (∀ w, (m w).2 = w) → always rel m.
Proof.
  intros Hm w res w' Hrun. specialize (Hm w). rewrite Hrun in Hm.
  cbn in Hm. by subst.
Qed.

Lemma always_ret {A} (v : A) : always rel (mret v).
Proof. by apply always_same. Qed.

Lemma always_lift {A} (v : result A) : always rel (lift v).
Proof. by apply always_same. Qed.

Lemma always_deref l : always rel (deref l).
Proof. apply always_same. intros w. unfold deref. by destruct (heap w !! l). Qed.

Lemma always_read_global : always rel read_global.
Proof.
  apply always_same. intros w. unfold read_global.
  by destruct (get_loss_and_gradients w).
Qed.

Lemma always_for_each {A} (body : A → M unit) (items : list A) :
  (∀ i, always rel (body i)) → always rel (for_each items body).
Proof.
  intros Hb. induction items as [|i items IH]; cbn [for_each].
  - apply always_ret.
  - apply always_bind; [apply Hb|]. by intros _.
Qed.
End Always.

Lemma extends_emit (P : event R → Prop) (e : event R) : P e → always (extends P) (emit e).
Proof.
  intros He w res w' [= <- <-]. split; [done|]. exists [e].
  split; [done|]. by constructor.
Qed.

Lemma extends_store (P : event R → Prop) r a : always (extends P) (store r a).
Proof.
  intros w res w' [= <- <-]. split; [done|]. exists [].
  cbn. by rewrite app_nil_r.
Qed.

Lemma extends_alloc (P : event R → Prop) a : always (extends P) (alloc a).
Proof.
  intros w res w' [= <- <-]. split; [done|]. exists [].
  cbn. by rewrite app_nil_r.
Qed.

Lemma heap_frame_emit r (e : event R) : always (heap_frame r) (emit e).
Proof. by intros w res w' [= <- <-]. Qed.

Lemma heap_frame_store r a : always (heap_frame r) (store r a).
Proof.
  intros w res w' [= <- <-]. split; cbn.
  - apply length_insert.
  - intros l Hl. by apply list_lookup_insert_ne.
Qed.

(** Rules for a computation built from the primitive steps. *)
Ltac always_with rel leaf :=
  repeat first
    [ apply (always_ret rel) | apply (always_lift rel)
    | apply (always_deref rel) | apply (always_read_global rel)
    | leaf
    | apply (always_for_each rel); intros ?
    | apply (always_bind rel); [|intros ?]
    | match goal with |- always _ (let '(_, _) := ?p in _) => destruct p end ].

(** The loop of [gradient_ascent] adds loop events only, leaves the global
    alone, creates no object and changes no object but its argument,
    whether it returns or raises. *)
Lemma gradient_ascent_extends r (iterations : Z) (s : R) :
  always (extends is_loop_event) (gradient_ascent r iterations s).
Proof.
  unfold gradient_ascent, retrieve_loss_and_gradients, isub.
  always_with (extends (R:=R) is_loop_event)
    ltac:(first [apply extends_store | apply extends_emit; done]).
Qed.

Lemma gradient_ascent_frame r (iterations : Z) (s : R) :
  always (heap_frame r) (gradient_ascent r iterations s).
Proof.
  unfold gradient_ascent, retrieve_loss_and_gradients, isub.
  always_with (heap_frame (R:=R) r)
    ltac:(first [apply heap_frame_store | apply heap_frame_emit]).
Qed.

(** [gradient_ascent] returns its argument or raises. *)
Lemma gradient_ascent_result r (iterations : Z) (s : R) w v w' :
  gradient_ascent r iterations s w = (Ok v, w') → v = r.
Proof.
  unfold gradient_ascent. rewrite run_bind.
  destruct (for_each _ _ w) as [[[]|e] w1]; [|done]. by intros [= <- _].
Qed.

Lemma display_image_extends l (is_input : bool) :
  always (extends is_display_event) (display_image plt_imshow l is_input).
Proof.
  unfold display_image, call_imshow. destruct is_input;
    always_with (extends (R:=R) is_display_event)
      ltac:(apply extends_emit; done).
Qed.

Lemma display_extends (depth_model_wrapper : DepthModelWrapper R Model)
    (model : Model) original_image altered_image :
  always (extends is_display_event)
    (display plt_imshow depth_model_wrapper model original_image altered_image).
Proof.
  unfold display, call_predict.
  always_with (extends (R:=R) is_display_event)
    ltac:(first [apply extends_alloc | apply display_image_extends
                | apply extends_emit; done]).
Qed.

(** *** Display *)

Lemma bind_ok_inv {A B} (m : M A) (f : A → M B) w v w' :
  (m ≫= f) w = (Ok v, w') →
  ∃ u w1, m w = (Ok u, w1) ∧ f u w1 = (Ok v, w').
Proof.
  rewrite run_bind. destruct (m w) as [[u|e] w1]; [|done]. eauto.
Qed.

(** A call of [display_image] that finds an image to show hands it to
    [plt.imshow], and shows it or raises as [plt.imshow] does. *)
Lemma display_image_run l (is_input : bool) w a img :
  heap w !! l = Some a →
  image_shown a is_input = Ok img →
  display_image plt_imshow l is_input w = imshow_outcome plt_imshow w img.
Proof.
  intros Hl. unfold image_shown, display_image, call_imshow, imshow_outcome.
  exec. rewrite Hl.
  destruct (getitem0 a) as [first|e]; [|done]. cbn [mbind result_bind].
  destruct is_input; intros ->; cbn [heap trace get_loss_and_gradients];
    destruct (plt_imshow img) as [[]|e];
    cbn [heap trace get_loss_and_gradients]; by rewrite <- !app_assoc.
Qed.

(** A call of [display_image] that finds no image to show raises before
    [plt.imshow] is called. *)
Lemma display_image_run_raise l (is_input : bool) w a e :
  heap w !! l = Some a →
  image_shown a is_input = Raise e →
  display_image plt_imshow l is_input w
  = (Raise e, World (heap w) (get_loss_and_gradients w)
                (trace w ++ [EvFigure])).
Proof.
  intros Hl. unfold image_shown, display_image, call_imshow. exec. rewrite Hl.
  destruct (getitem0 a) as [first|e']; cbn [mbind result_bind].
  - destruct is_input; by intros ->.
  - intros [= ->]. by destruct is_input.
Qed.

Lemma display_image_inv l (is_input : bool) w w' :
  display_image plt_imshow l is_input w = (Ok tt, w') →
  ∃ a img,
    heap w !! l = Some a
    ∧ image_shown a is_input = Ok img
    ∧ plt_imshow img = Ok tt
    ∧ w' = World (heap w) (get_loss_and_gradients w)
             (trace w ++ display_events img).
Proof.
  intros Hrun.
  destruct (heap w !! l) as [a|] eqn:Hl;
    [|unfold display_image in Hrun; revert Hrun; exec; by rewrite Hl].
  destruct (image_shown a is_input) as [img|e] eqn:Himg.
  - rewrite (display_image_run _ _ _ a img) in Hrun by done.
    unfold imshow_outcome in Hrun.
    destruct (plt_imshow img) as [[]|e] eqn:Hshow; [|done].
    injection Hrun as <-. by exists a, img.
  - by rewrite (display_image_run_raise _ _ _ a e) in Hrun.
Qed.

Lemma call_predict_inv (depth_model_wrapper : DepthModelWrapper R Model)
    (model : Model) l w v w' :
  call_predict depth_model_wrapper model l w = (Ok v, w') →
  ∃ a out,
    heap w !! l = Some a
    ∧ predict depth_model_wrapper model a = Ok out
    ∧ v = length (heap w)
    ∧ w' = World (heap w ++ [out]) (get_loss_and_gradients w)
             (trace w ++ [EvPredict a]).
Proof.
  unfold call_predict. exec.
  destruct (heap w !! l) as [a|] eqn:Hl; [|done].
  destruct (predict depth_model_wrapper model a) as [out|e] eqn:Hp; [|done].
  intros [= <- <-]. by exists a, out.
Qed.

(** A call of [display] that returns has predicted on the two images it
    was given and shown four images: the original input, its predicted
    depth, the altered input, its predicted depth. *)
Lemma display_inv (depth_model_wrapper : DepthModelWrapper R Model)
    (model : Model) original_image altered_image w w' :
  altered_image < length (heap w) →
  display plt_imshow depth_model_wrapper model original_image altered_image w
  = (Ok tt, w') →
  ∃ original altered original_output altered_output s1 s2 s3 s4,
    heap w !! original_image = Some original
    ∧ heap w !! altered_image = Some altered
    ∧ predict depth_model_wrapper model original = Ok original_output
    ∧ predict depth_model_wrapper model altered = Ok altered_output
    ∧ image_shown original true = Ok s1
    ∧ image_shown original_output false = Ok s2
    ∧ image_shown altered true = Ok s3
    ∧ image_shown altered_output false = Ok s4
    ∧ heap w' = heap w ++ [original_output; altered_output]
    ∧ get_loss_and_gradients w' = get_loss_and_gradients w
    ∧ trace w'
      = trace w ++ [EvPredict original; EvPredict altered]
          ++ display_events s1 ++ display_events s2
          ++ display_events s3 ++ display_events s4.
Proof.
  unfold display. intros Hla Hrun.
  apply bind_ok_inv in Hrun as (oo & w1 & Hp1 & Hrun).
  apply call_predict_inv in Hp1 as (xo & yo & Hxo & Hyo & -> & ->).
  apply bind_ok_inv in Hrun as (ao & w2 & Hp2 & Hrun).
  apply call_predict_inv in Hp2 as (xa & ya & Hxa & Hya & -> & ->).
  cbn [heap trace get_loss_and_gradients] in *.
  apply bind_ok_inv in Hrun as ([] & w3 & Hd1 & Hrun).
  apply display_image_inv in Hd1 as (a1 & s1 & Ha1 & Hs1 & _ & ->).
  apply bind_ok_inv in Hrun as ([] & w4 & Hd2 & Hrun).
  apply display_image_inv in Hd2 as (a2 & s2 & Ha2 & Hs2 & _ & ->).
  apply bind_ok_inv in Hrun as ([] & w5 & Hd3 & Hrun).
  apply display_image_inv in Hd3 as (a3 & s3 & Ha3 & Hs3 & _ & ->).
  apply display_image_inv in Hrun as (a4 & s4 & Ha4 & Hs4 & _ & ->).
  cbn [heap trace get_loss_and_gradients] in *.
  assert (Hlo := lookup_lt_Some _ _ _ Hxo).
  rewrite lookup_app_l in Hxa by done.
  assert (Hlo' : original_image < length (heap w ++ [yo]))
    by (rewrite length_app; lia).
  assert (Hla' : altered_image < length (heap w ++ [yo]))
    by (rewrite length_app; lia).
  rewrite (lookup_app_l _ _ _ Hlo'), (lookup_app_l _ _ _ Hlo) in Ha1.
  rewrite (lookup_app_l _ _ _ Hla'), (lookup_app_l _ _ _ Hla) in Ha3.
  rewrite lookup_app_l, list_lookup_middle in Ha2
    by (done || rewrite length_app; cbn; lia).
  rewrite list_lookup_middle in Ha4 by done.
  pose proof (eq_trans (eq_sym Hxo) Ha1) as [= <-].
  pose proof (eq_trans (eq_sym Hxa) Ha3) as [= <-].
  injection Ha2 as <-. injection Ha4 as <-.
  exists xo, xa, yo, ya, s1, s2, s3, s4.
  repeat (split; [done|]). split; [by rewrite <- app_assoc|].
  split; [done|]. by rewrite <- !app_assoc.
Qed.

(** C6, amended. [display] shows the two input images with
    [is_input=True] and the two predicted depth outputs without it. For an
    input image, the first element of the batch is handed to [plt.imshow]
    as it is when its channel dimension is 3, and otherwise (1 channel or
    more) its channel 0 is repeated into 3 identical channels. A predicted
    depth output is not made 3-channel: channel 0 of the first element of
    its batch is handed to [plt.imshow] as a 2-dimensional array, whatever
    the number of channels. In each case the image is shown when
    [plt.imshow] accepts it; when [plt.imshow] raises, the exception
    propagates and [plt.show] is not called. *)
Theorem display_image_channels l w a first :
  heap w !! l = Some a →
  getitem0 a = Ok first →
  (shape first !! 2 = Some 3 →
     display_image plt_imshow l true w = imshow_outcome plt_imshow w first)
  ∧ (∀ h wd c,
       shape first = [h; wd; c] → well_formed first → c ≠ 3 → 0 < c →
       ∃ img,
         display_image plt_imshow l true w = imshow_outcome plt_imshow w img
         ∧ shape img = [h; wd; 3]
         ∧ ∀ i j k, i < h → j < wd → k < 3 →
             is_Some (pixel first i j 0)
             ∧ pixel img i j k = pixel first i j 0)
  ∧ (∀ h wd c,
       shape first = [h; wd; c] → well_formed first → 0 < c →
       ∃ img,
         display_image plt_imshow l false w = imshow_outcome plt_imshow w img
         ∧ shape img = [h; wd]
         ∧ ∀ i j, i < h → j < wd →
             is_Some (pixel first i j 0)
             ∧ data img !! (i * wd + j) = pixel first i j 0)
  ∧ (∀ img,
       plt_imshow img = Ok tt →
       imshow_outcome plt_imshow w img
       = (Ok tt, World (heap w) (get_loss_and_gradients w)
                   (trace w ++ [EvFigure; EvImshow img; EvShow])))
  ∧ (∀ img e,
       plt_imshow img = Raise e →
       imshow_outcome plt_imshow w img
       = (Raise e, World (heap w) (get_loss_and_gradients w)
                     (trace w ++ [EvFigure; EvImshow img])))
  ∧ (∀ (depth_model_wrapper : DepthModelWrapper R Model) model
       original_image altered_image,
       display plt_imshow depth_model_wrapper model original_image altered_image
       = (original_output ← call_predict depth_model_wrapper model original_image;
          altered_output ← call_predict depth_model_wrapper model altered_image;
          display_image plt_imshow original_image true;;
          display_image plt_imshow original_output false;;
          display_image plt_imshow altered_image true;;
          display_image plt_imshow altered_output false)).
Proof.
  intros Hl Hfirst. split; [|split; [|split; [|split; [|split]]]].
  - intros H3. apply (display_image_run _ _ _ a); [done|].
    unfold image_shown. rewrite Hfirst. by apply to_multichannel_3.
  - intros h wd c Hs Hwf Hc3 Hc0.
    destruct (to_multichannel_broadcast first h wd c) as (img & Him & Hsh & _ & Hpx);
      [done..|].
    exists img. split; [|done].
    apply (display_image_run _ _ _ a); [done|].
    unfold image_shown. by rewrite Hfirst.
  - intros h wd c Hs Hwf Hc0.
    assert (Hlen : length (data first) = h * wd * c).
    { unfold well_formed in Hwf. rewrite Hs in Hwf. cbn in Hwf. lia. }
    eexists. split.
    { apply (display_image_run _ _ _ a); [done|].
      unfold image_shown. rewrite Hfirst. cbn [mbind result_bind].
      unfold getitem_all_all_0. rewrite Hs.
      rewrite decide_False by lia. done. }
    split; [done|]. intros i j Hi Hj. cbn [data size_of foldr].
    assert (Hp : i * wd + j < h * wd) by nia.
    rewrite Nat.mul_1_r, take_blocks_1_lookup by (done || lia).
    unfold pixel. rewrite Hs, decide_True by lia.
    rewrite Nat.add_0_r. split; [|done]. apply lookup_lt_is_Some. nia.
  - intros img Hok. unfold imshow_outcome. by rewrite Hok.
  - intros img e Hraise. unfold imshow_outcome. by rewrite Hraise.
  - done.
Qed.

(** *** Loading the inputs *)

(** [get_sink_to_bathtub_inputs] when nothing raises. *)
Lemma get_sink_to_bathtub_inputs_run
    (depth_model_wrapper : DepthModelWrapper R Model) (model : Model)
    w a b goal :
  load_image depth_model_wrapper SINK_IMAGE = Ok a →
  load_image depth_model_wrapper BATHTUB_IMAGE = Ok b →
  predict depth_model_wrapper model b = Ok goal →
  get_sink_to_bathtub_inputs depth_model_wrapper model w
  = (Ok (length (heap w), length (heap w) + 2),
     World (heap w ++ [a; b; goal]) (get_loss_and_gradients w)
       (trace w ++ [EvLoadImage SINK_IMAGE; EvLoadImage BATHTUB_IMAGE;
                    EvPredict b])).
Proof.
  intros Ha Hb Hg.
  unfold get_sink_to_bathtub_inputs, call_load_image, call_predict. exec.
  rewrite Ha. exec. rewrite Hb. exec.
  rewrite list_lookup_middle by done. exec. rewrite Hg. exec.
  rewrite !length_app. cbn [length].
  rewrite <- !app_assoc. cbn [app]. do 3 f_equal. lia.
Qed.

(** C8. [get_sink_to_bathtub_inputs] handles no error. When loading the
    sink image, loading the bathtub image, or the prediction on the bathtub
    image raises, the call raises that very error; nothing was retried and
    nothing was done after the failing call (the sequence of calls ends
    with it); and [generate_adversarial_example], which handles no error
    either, raises the same error in the same state. *)
Theorem get_sink_to_bathtub_inputs_propagates
    (depth_model_wrapper : DepthModelWrapper R Model) (model : Model) w e :
  (load_image depth_model_wrapper SINK_IMAGE = Raise e →
     get_sink_to_bathtub_inputs depth_model_wrapper model w
     = (Raise e,
        World (heap w) (get_loss_and_gradients w)
          (trace w ++ [EvLoadImage SINK_IMAGE])))
  ∧ (∀ a,
       load_image depth_model_wrapper SINK_IMAGE = Ok a →
       load_image depth_model_wrapper BATHTUB_IMAGE = Raise e →
       get_sink_to_bathtub_inputs depth_model_wrapper model w
       = (Raise e,
          World (heap w ++ [a]) (get_loss_and_gradients w)
            (trace w ++ [EvLoadImage SINK_IMAGE; EvLoadImage BATHTUB_IMAGE])))
  ∧ (∀ a b,
       load_image depth_model_wrapper SINK_IMAGE = Ok a →
       load_image depth_model_wrapper BATHTUB_IMAGE = Ok b →
       predict depth_model_wrapper model b = Raise e →
       get_sink_to_bathtub_inputs depth_model_wrapper model w
       = (Raise e,
          World (heap w ++ [a; b]) (get_loss_and_gradients w)
            (trace w ++ [EvLoadImage SINK_IMAGE; EvLoadImage BATHTUB_IMAGE;
                         EvPredict b])))
  ∧ (∀ iterations (step_size : R) w',
       initialize_model depth_model_wrapper = Ok model →
       get_sink_to_bathtub_inputs depth_model_wrapper model
         (World (heap w) (get_loss_and_gradients w)
            (trace w ++ [EvSetLearningPhase 0; EvInitializeModel]))
       = (Raise e, w') →
       generate_adversarial_example K_gradients K_epsilon K_compile
         plt_imshow depth_model_wrapper iterations step_size w
       = (Raise e, w')).
Proof.
  split; [|split; [|split]].
  - intros Ha.
    unfold get_sink_to_bathtub_inputs, call_load_image. exec.
    rewrite Ha. by exec.
  - intros a Ha Hb.
    unfold get_sink_to_bathtub_inputs, call_load_image. exec.
    rewrite Ha. exec. rewrite Hb. exec. by rewrite <- !app_assoc.
  - intros a b Ha Hb Hp.
    unfold get_sink_to_bathtub_inputs, call_load_image, call_predict. exec.
    rewrite Ha. exec. rewrite Hb. exec.
    rewrite list_lookup_middle by done. exec. rewrite Hp. exec.
    by rewrite <- !app_assoc.
  - intros iterations step_size w' Hm Hsink.
    unfold generate_adversarial_example, call_initialize_model.
    exec. rewrite Hm. exec.
    rewrite <- app_assoc. cbn [app]. by rewrite Hsink.
Qed.

(** *** The whole script *)

Lemma get_sink_to_bathtub_inputs_extends
    (depth_model_wrapper : DepthModelWrapper R Model) (model : Model) :
  always (extends is_setup_event)
    (get_sink_to_bathtub_inputs depth_model_wrapper model).
Proof.
  unfold get_sink_to_bathtub_inputs, call_load_image, call_predict.
  always_with (extends (R:=R) is_setup_event)
    ltac:(first [apply extends_alloc | apply extends_emit; done]).
Qed.

Lemma get_sink_to_bathtub_inputs_inv
    (depth_model_wrapper : DepthModelWrapper R Model) (model : Model)
    w v w' :
  get_sink_to_bathtub_inputs depth_model_wrapper model w = (Ok v, w') →
  ∃ a b goal,
    load_image depth_model_wrapper SINK_IMAGE = Ok a
    ∧ load_image depth_model_wrapper BATHTUB_IMAGE = Ok b
    ∧ predict depth_model_wrapper model b = Ok goal.
Proof.
  unfold get_sink_to_bathtub_inputs, call_load_image, call_predict. exec.
  destruct (load_image depth_model_wrapper SINK_IMAGE) as [a|] eqn:Ha; [|done].
  exec.
  destruct (load_image depth_model_wrapper BATHTUB_IMAGE) as [b|] eqn:Hb; [|done].
  exec. rewrite list_lookup_middle by done. exec.
  destruct (predict depth_model_wrapper model b) as [goal|] eqn:Hg; [|done].
  intros _. by exists a, b, goal.
Qed.

(** The course of a run of [generate_adversarial_example]: where it can
    stop, and in what state. *)
Lemma generate_adversarial_example_cases
    (depth_model_wrapper : DepthModelWrapper R Model) (iterations : Z)
    (step_size : R) w :
  let run := generate_adversarial_example K_gradients K_epsilon K_compile
               plt_imshow depth_model_wrapper iterations step_size w in
  let w_init := World (heap w) (get_loss_and_gradients w)
                  (trace w ++ [EvSetLearningPhase 0; EvInitializeModel]) in
  (∃ e, initialize_model depth_model_wrapper = Raise e
        ∧ run = (Raise e, w_init))
  ∨ (∃ model e w1,
       initialize_model depth_model_wrapper = Ok model
       ∧ get_sink_to_bathtub_inputs depth_model_wrapper model w_init
         = (Raise e, w1)
       ∧ run = (Raise e, w1))
  ∨ (∃ model a b goal,
       initialize_model depth_model_wrapper = Ok model
       ∧ load_image depth_model_wrapper SINK_IMAGE = Ok a
       ∧ load_image depth_model_wrapper BATHTUB_IMAGE = Ok b
       ∧ predict depth_model_wrapper model b = Ok goal
       ∧ ((∃ e,
            get_final_layer depth_model_wrapper model = Raise e
            ∧ run = (Raise e,
                     World (heap w ++ [a; b; goal]) (get_loss_and_gradients w)
                       (trace w ++ setup_events b ++ [EvGetFinalLayer])))
          ∨ (∃ fl e,
               get_final_layer depth_model_wrapper model = Ok fl
               ∧ K_compile model fl goal = Raise e
               ∧ run = (Raise e,
                        World (heap w ++ [a; b; goal]) (get_loss_and_gradients w)
                          (trace w ++ setup_events b ++ [EvGetFinalLayer])))
          ∨ (∃ fl res w2,
               get_final_layer depth_model_wrapper model = Ok fl
               ∧ K_compile model fl goal = Ok tt
               ∧ gradient_ascent (length (heap w)) iterations step_size
                   (World (heap w ++ [a; b; goal; a])
                      (Some (K_function (loss_of fl goal)
                               (gradients_of K_gradients K_epsilon
                                  (loss_of fl goal))))
                      (trace w ++ setup_events b
                         ++ [EvGetFinalLayer; EvBindGlobal]))
                 = (res, w2)
               ∧ ((∃ e, res = Raise e ∧ run = (Raise e, w2))
                  ∨ (res = Ok (length (heap w))
                     ∧ run = display plt_imshow depth_model_wrapper model
                               (length (heap w) + 3) (length (heap w)) w2))))).
Proof.
  intros run w_init. subst run.
  unfold generate_adversarial_example, call_initialize_model. exec.
  destruct (initialize_model depth_model_wrapper) as [model|e] eqn:Hm;
    [|left; exists e; split; [done|]; exec; by rewrite <- app_assoc].
  right. exec. rewrite <- app_assoc. cbn [app]. fold w_init.
  destruct (get_sink_to_bathtub_inputs depth_model_wrapper model w_init)
    as [[[input_image goal_output]|e] w1] eqn:Hsink;
    [|left; by exists model, e, w1].
  right.
  destruct (get_sink_to_bathtub_inputs_inv _ _ _ _ _ Hsink)
    as (a & b & goal & Ha & Hb & Hg).
  rewrite (get_sink_to_bathtub_inputs_run _ _ _ a b goal) in Hsink by done.
  injection Hsink as <- <- <-.
  exists model, a, b, goal. do 4 (split; [done|]).
  unfold call_get_final_layer. exec. subst w_init.
  cbn [heap trace get_loss_and_gradients].
  assert (Hgoal : (heap w ++ [a; b; goal]) !! (length (heap w) + 2) = Some goal).
  { rewrite lookup_app_r by lia.
    by replace (length (heap w) + 2 - length (heap w)) with 2 by lia. }
  assert (Hinput : (heap w ++ [a; b; goal]) !! length (heap w) = Some a)
    by by apply list_lookup_middle.
  rewrite Hgoal. unfold copy. exec. rewrite Hinput.
  rewrite <- !app_assoc. unfold setup_events.
  cbn [app heap trace get_loss_and_gradients].
  rewrite <- (app_assoc (heap w)). cbn [app].
  replace (length (heap w ++ [a; b; goal])) with (length (heap w) + 3)
    by (rewrite length_app; done).
  destruct (get_final_layer depth_model_wrapper model) as [fl|e] eqn:Hfl;
    [|left; by exists e].
  right. cbn [heap trace get_loss_and_gradients].
  destruct (K_compile model fl goal) as [[]|e] eqn:Hcompile;
    [|left; by exists fl, e].
  right.
  destruct (gradient_ascent (length (heap w)) iterations step_size _)
    as [res w2] eqn:Hloop.
  exists fl, res, w2. split; [done|]. split; [done|]. split; [done|].
  destruct res as [v|e]; [right|left; by exists e].
  apply gradient_ascent_result in Hloop as ->. done.
Qed.

Lemma shown_app (l1 l2 : list (event R)) : shown (l1 ++ l2) = shown l1 ++ shown l2.
Proof. apply omap_app. Qed.

Lemma shown_none (P : event R → Prop) (l : list (event R)) :
  (∀ a, ¬ P (EvImshow a)) → Forall P l → shown l = [].
Proof.
  intros HP Hl. induction Hl as [|e l He _ IH]; [done|].
  unfold shown in *. cbn. rewrite IH.
  destruct e; try done. by destruct (HP image).
Qed.

Lemma filter_none (f : event R → bool) (l : list (event R)) :
  Forall (λ e, f e = false) l → List.filter f l = [].
Proof.
  induction 1 as [|e l He _ IH]; [done|]. cbn. by rewrite He.
Qed.

(** A run that returns: what [display] was given and what it showed. *)
Lemma generate_adversarial_example_returns
    (depth_model_wrapper : DepthModelWrapper R Model) (iterations : Z)
    (step_size : R) w w' :
  generate_adversarial_example K_gradients K_epsilon K_compile plt_imshow
    depth_model_wrapper iterations step_size w = (Ok tt, w') →
  ∃ model a b altered original_output altered_output s1 s2 s3 s4 loop,
    let input_image := length (heap w) in
    let original_image := length (heap w) + 3 in
    initialize_model depth_model_wrapper = Ok model
    ∧ load_image depth_model_wrapper SINK_IMAGE = Ok a
    ∧ load_image depth_model_wrapper BATHTUB_IMAGE = Ok b
    ∧ heap w' !! original_image = Some a
    ∧ heap w' !! input_image = Some altered
    ∧ Forall is_loop_event loop
    ∧ predict depth_model_wrapper model a = Ok original_output
    ∧ predict depth_model_wrapper model altered = Ok altered_output
    ∧ image_shown a true = Ok s1
    ∧ image_shown original_output false = Ok s2
    ∧ image_shown altered true = Ok s3
    ∧ image_shown altered_output false = Ok s4
    ∧ trace w'
      = trace w ++ (setup_events b ++ [EvGetFinalLayer; EvBindGlobal] ++ loop)
          ++ [EvPredict a; EvPredict altered]
          ++ display_events s1 ++ display_events s2
          ++ display_events s3 ++ display_events s4
    ∧ shown (setup_events b ++ [EvGetFinalLayer; EvBindGlobal] ++ loop) = [].
Proof.
  intros Hrun.
  destruct (generate_adversarial_example_cases depth_model_wrapper
              iterations step_size w)
    as [(e & _ & Hr)|[(model & e & w1 & _ & _ & Hr)
       |(model & a & b & goal & Hm & Ha & Hb & Hg &
          [(e & _ & Hr)|[(fl & e & _ & _ & Hr)
                        |(fl & res & w2 & Hfl & _ & Hloop & Hr)]])]];
    try (rewrite Hrun in Hr; discriminate).
  destruct Hr as [(e & _ & Hr)|[-> Hr]];
    [rewrite Hrun in Hr; discriminate|].
  rewrite Hrun in Hr. symmetry in Hr.
  destruct (gradient_ascent_frame _ _ _ _ _ _ Hloop) as [Hlen Hframe].
  destruct (gradient_ascent_extends _ _ _ _ _ _ Hloop)
    as [Hglobal (loop & Htrace & Hevs)].
  cbn [heap trace get_loss_and_gradients] in *.
  rewrite length_app in Hlen. cbn [length] in Hlen.
  apply display_inv in Hr; [|lia].
  destruct Hr as (x & altered & oo & ao & s1 & s2 & s3 & s4 &
                  Hx & Halt & Hoo & Hao & Hs1 & Hs2 & Hs3 & Hs4 &
                  Hheap & _ & Htr).
  rewrite Hframe in Hx by lia.
  rewrite lookup_app_r in Hx by lia.
  replace (length (heap w) + 3 - length (heap w)) with 3 in Hx by lia.
  injection Hx as <-.
  exists model, a, b, altered, oo, ao, s1, s2, s3, s4, loop. cbn zeta.
  do 3 (split; [done|]).
  split.
  { rewrite Hheap, lookup_app_l by lia. rewrite Hframe by lia.
    rewrite lookup_app_r by lia.
    by replace (length (heap w) + 3 - length (heap w)) with 3 by lia. }
  split; [by rewrite Hheap, lookup_app_l by lia|].
  do 7 (split; [done|]).
  split; [by rewrite Htr, Htrace, <- !app_assoc|].
  rewrite !shown_app.
  rewrite (shown_none is_loop_event loop); [done|by intros ? []|done].
Qed.

(** A run either raises before anything is shown, or reaches [display]
    with the original image holding the sink image as loaded. *)
Lemma generate_adversarial_example_reaches_display
    (depth_model_wrapper : DepthModelWrapper R Model) (iterations : Z)
    (step_size : R) w res w' :
  generate_adversarial_example K_gradients K_epsilon K_compile plt_imshow
    depth_model_wrapper iterations step_size w = (res, w') →
  (∃ e evs, res = Raise e ∧ trace w' = trace w ++ evs ∧ shown evs = [])
  ∨ (∃ model a w2,
       initialize_model depth_model_wrapper = Ok model
       ∧ load_image depth_model_wrapper SINK_IMAGE = Ok a
       ∧ heap w2 !! (length (heap w) + 3) = Some a
       ∧ length (heap w) < length (heap w2)
       ∧ display plt_imshow depth_model_wrapper model (length (heap w) + 3)
           (length (heap w)) w2
         = (res, w')).
Proof.
  intros Hrun.
  assert (Hsetup : ∀ evs : list (event R),
            Forall is_setup_event evs → shown evs = []).
  { intros evs. apply shown_none. by intros ? []. }
  destruct (generate_adversarial_example_cases depth_model_wrapper
              iterations step_size w)
    as [(e & _ & Hr)|[(model & e & w1 & _ & Hsink & Hr)
       |(model & a & b & goal & Hm & Ha & Hb & Hg &
          [(e & _ & Hr)|[(fl & e & _ & _ & Hr)
                        |(fl & res' & w2 & Hfl & _ & Hloop & Hr)]])]].
  - rewrite Hrun in Hr. injection Hr as -> ->. left.
    by exists e, [EvSetLearningPhase 0; EvInitializeModel].
  - rewrite Hrun in Hr. injection Hr as -> ->. left.
    destruct (get_sink_to_bathtub_inputs_extends _ _ _ _ _ Hsink)
      as [_ (evs & Ht & Hevs)].
    cbn [trace] in Ht.
    exists e, ([EvSetLearningPhase 0; EvInitializeModel] ++ evs).
    split; [done|]. split; [by rewrite Ht, <- app_assoc|].
    rewrite shown_app. by rewrite (Hsetup evs).
  - rewrite Hrun in Hr. injection Hr as -> ->. left.
    by exists e, (setup_events b ++ [EvGetFinalLayer]).
  - rewrite Hrun in Hr. injection Hr as -> ->. left.
    by exists e, (setup_events b ++ [EvGetFinalLayer]).
  - destruct (gradient_ascent_frame _ _ _ _ _ _ Hloop) as [Hlen Hframe].
    destruct (gradient_ascent_extends _ _ _ _ _ _ Hloop)
      as [_ (loop & Htrace & Hevs)].
    cbn [heap trace get_loss_and_gradients] in *.
    rewrite length_app in Hlen. cbn [length] in Hlen.
    destruct Hr as [(e & -> & Hr)|[-> Hr]].
    + rewrite Hrun in Hr. injection Hr as -> ->. left.
      exists e, ((setup_events b ++ [EvGetFinalLayer; EvBindGlobal]) ++ loop).
      split; [done|]. split; [by rewrite Htrace, <- !app_assoc|].
      rewrite shown_app.
      by rewrite (shown_none is_loop_event loop); [|by intros ? []|].
    + right. exists model, a, w2. split; [done|]. split; [done|].
      split; [|split; [lia|by rewrite <- Hr]].
      rewrite Hframe by lia. rewrite lookup_app_r by lia.
      by replace (length (heap w) + 3 - length (heap w)) with 3 by lia.
Qed.

(** C7. In every run of [generate_adversarial_example] that gets to
    [display], the image [display] is given as the original is the sink
    image as [load_image] returned it: the copy taken before the loop is a
    new object, the loop changes no object but the one it was given, and
    that one is the altered image. A run that returns has predicted on the
    two and shown, in this order, the original input, its predicted depth,
    the altered input, its predicted depth; nothing is shown before, and a
    run that does not get to [display] shows nothing. *)
Theorem generate_displays_loaded_image
    (depth_model_wrapper : DepthModelWrapper R Model) (iterations : Z)
    (step_size : R) w res w' :
  generate_adversarial_example K_gradients K_epsilon K_compile plt_imshow
    depth_model_wrapper iterations step_size w = (res, w') →
  ((∃ e evs, res = Raise e ∧ trace w' = trace w ++ evs ∧ shown evs = [])
   ∨ (∃ model a w2,
        initialize_model depth_model_wrapper = Ok model
        ∧ load_image depth_model_wrapper SINK_IMAGE = Ok a
        ∧ heap w2 !! (length (heap w) + 3) = Some a
        ∧ length (heap w) < length (heap w2)
        ∧ display plt_imshow depth_model_wrapper model (length (heap w) + 3)
            (length (heap w)) w2
          = (res, w')))
  ∧ (res = Ok tt →
     ∃ model a b altered original_output altered_output s1 s2 s3 s4 loop,
       initialize_model depth_model_wrapper = Ok model
       ∧ load_image depth_model_wrapper SINK_IMAGE = Ok a
       ∧ load_image depth_model_wrapper BATHTUB_IMAGE = Ok b
       ∧ heap w' !! (length (heap w) + 3) = Some a
       ∧ heap w' !! length (heap w) = Some altered
       ∧ Forall is_loop_event loop
       ∧ predict depth_model_wrapper model a = Ok original_output
       ∧ predict depth_model_wrapper model altered = Ok altered_output
       ∧ image_shown a true = Ok s1
       ∧ image_shown original_output false = Ok s2
       ∧ image_shown altered true = Ok s3
       ∧ image_shown altered_output false = Ok s4
       ∧ trace w'
         = trace w ++ (setup_events b ++ [EvGetFinalLayer; EvBindGlobal] ++ loop)
             ++ [EvPredict a; EvPredict altered]
             ++ display_events s1 ++ display_events s2
             ++ display_events s3 ++ display_events s4
       ∧ shown (setup_events b ++ [EvGetFinalLayer; EvBindGlobal] ++ loop) = []).
Proof.
  intros Hrun. split.
  - by eapply generate_adversarial_example_reaches_display.
  - intros ->. exact (generate_adversarial_example_returns _ _ _ _ _ Hrun).
Qed.

Lemma setup_event_quiet (e : event R) :
  is_setup_event e → is_bindb e = false ∧ is_evaluateb e = false.
Proof. by destruct e. Qed.

Lemma loop_or_display_event_no_bind (e : event R) :
  is_loop_event e ∨ is_display_event e → is_bindb e = false.
Proof. by destruct e; intros [[]|[]]. Qed.

(** C9, amended. In every run of [generate_adversarial_example], whether it
    returns or raises, the global is assigned at most once. A run that
    raises before the assignment (model initialisation, image loading,
    target prediction, final layer, construction of the loss and the
    gradient) never assigns it and never evaluates the compiled function.
    In every other run, and so in every run that returns and every run that
    reaches the loop, it is assigned exactly once, to the function compiled
    from the loss and the normalised gradient, which the framework had
    accepted; no evaluation comes before the assignment; no assignment
    comes after it; and at the end the global still holds that function.
    When the framework rejects the loss or the gradient, the run raises
    what the framework raised, right after the final layer was fetched,
    with the global as it was. *)
Theorem global_assigned_once_before_loop
    (depth_model_wrapper : DepthModelWrapper R Model) (iterations : Z)
    (step_size : R) w :
  let run := generate_adversarial_example K_gradients K_epsilon K_compile
               plt_imshow depth_model_wrapper iterations step_size w in
  (∃ evs,
     trace run.2 = trace w ++ evs
     ∧ length (List.filter is_bindb evs) ≤ 1
     ∧ (run.1 = Ok tt → length (List.filter is_bindb evs) = 1)
     ∧ ((List.filter is_bindb evs = []
         ∧ List.filter is_evaluateb evs = []
         ∧ get_loss_and_gradients run.2 = get_loss_and_gradients w
         ∧ ∃ e, run.1 = Raise e)
        ∨ (∃ pre post model fl goal,
             evs = pre ++ EvBindGlobal :: post
             ∧ Forall (λ e, is_bindb e = false ∧ is_evaluateb e = false) pre
             ∧ Forall (λ e, is_bindb e = false) post
             ∧ length (List.filter is_bindb evs) = 1
             ∧ K_compile model fl goal = Ok tt
             ∧ get_loss_and_gradients run.2
               = Some (K_function (loss_of fl goal)
                         (gradients_of K_gradients K_epsilon
                            (loss_of fl goal))))))
  ∧ (∀ model a b goal fl e,
       initialize_model depth_model_wrapper = Ok model →
       load_image depth_model_wrapper SINK_IMAGE = Ok a →
       load_image depth_model_wrapper BATHTUB_IMAGE = Ok b →
       predict depth_model_wrapper model b = Ok goal →
       get_final_layer depth_model_wrapper model = Ok fl →
       K_compile model fl goal = Raise e →
       run = (Raise e,
              World (heap w ++ [a; b; goal]) (get_loss_and_gradients w)
                (trace w ++ setup_events b ++ [EvGetFinalLayer]))).
Proof.
  intros run. split; cycle 1.
  { intros model a b goal fl e Hm Ha Hb Hg Hfl Hcompile.
    destruct (generate_adversarial_example_cases depth_model_wrapper
                iterations step_size w)
      as [(e' & Hm' & _)|[(model' & e' & w1 & Hm' & Hsink & _)
         |(model' & a' & b' & goal' & Hm' & Ha' & Hb' & Hg' &
            [(e' & Hfl' & _)|[(fl' & e' & Hfl' & Hcompile' & Hr)
                             |(fl' & res & w2 & Hfl' & Hcompile' & _)]])]];
      rewrite Hm in Hm'; try discriminate; injection Hm' as <-.
    - by rewrite (get_sink_to_bathtub_inputs_run _ _ _ a b goal) in Hsink.
    - rewrite Hfl in Hfl'. discriminate.
    - rewrite Ha in Ha'. injection Ha' as <-.
      rewrite Hb in Hb'. injection Hb' as <-.
      rewrite Hg in Hg'. injection Hg' as <-.
      rewrite Hfl in Hfl'. injection Hfl' as <-.
      rewrite Hcompile in Hcompile'. injection Hcompile' as <-. exact Hr.
    - rewrite Ha in Ha'. injection Ha' as <-.
      rewrite Hb in Hb'. injection Hb' as <-.
      rewrite Hg in Hg'. injection Hg' as <-.
      rewrite Hfl in Hfl'. injection Hfl' as <-.
      rewrite Hcompile in Hcompile'. discriminate. }
  assert (Hquiet : ∀ evs : list (event R), Forall is_setup_event evs →
            List.filter is_bindb evs = [] ∧ List.filter is_evaluateb evs = []).
  { intros evs Hevs. split; apply filter_none;
      (eapply Forall_impl; [|exact Hevs]);
      intros e He; by destruct (setup_event_quiet e He). }
  assert (Hfail : ∀ evs e w1,
            run = (Raise e, w1) →
            trace w1 = trace w ++ evs →
            get_loss_and_gradients w1 = get_loss_and_gradients w →
            Forall is_setup_event evs →
            ∃ evs,
              trace run.2 = trace w ++ evs
              ∧ length (List.filter is_bindb evs) ≤ 1
              ∧ (run.1 = Ok tt → length (List.filter is_bindb evs) = 1)
              ∧ ((List.filter is_bindb evs = []
                  ∧ List.filter is_evaluateb evs = []
                  ∧ get_loss_and_gradients run.2 = get_loss_and_gradients w
                  ∧ ∃ e, run.1 = Raise e)
                 ∨ (∃ pre post model fl goal,
                      evs = pre ++ EvBindGlobal :: post
                      ∧ Forall (λ e, is_bindb e = false ∧ is_evaluateb e = false) pre
                      ∧ Forall (λ e, is_bindb e = false) post
                      ∧ length (List.filter is_bindb evs) = 1
                      ∧ K_compile model fl goal = Ok tt
                      ∧ get_loss_and_gradients run.2
                        = Some (K_function (loss_of fl goal)
                                  (gradients_of K_gradients K_epsilon
                                     (loss_of fl goal)))))).
  { intros evs e w1 Hr Ht Hg Hevs. destruct (Hquiet evs Hevs) as [Hb He].
    exists evs. rewrite Hr. cbn [fst snd]. rewrite Hb.
    split; [done|]. split; [cbn; lia|]. split; [done|].
    left. eauto. }
  assert (Hbound : ∀ pre post w1 res model fl goal,
            run = (res, w1) →
            trace w1 = trace w ++ pre ++ EvBindGlobal :: post →
            Forall is_setup_event pre →
            Forall (λ e, is_loop_event e ∨ is_display_event e) post →
            K_compile model fl goal = Ok tt →
            get_loss_and_gradients w1
            = Some (K_function (loss_of fl goal)
                      (gradients_of K_gradients K_epsilon (loss_of fl goal))) →
            ∃ evs,
              trace run.2 = trace w ++ evs
              ∧ length (List.filter is_bindb evs) ≤ 1
              ∧ (run.1 = Ok tt → length (List.filter is_bindb evs) = 1)
              ∧ ((List.filter is_bindb evs = []
                  ∧ List.filter is_evaluateb evs = []
                  ∧ get_loss_and_gradients run.2 = get_loss_and_gradients w
                  ∧ ∃ e, run.1 = Raise e)
                 ∨ (∃ pre post model fl goal,
                      evs = pre ++ EvBindGlobal :: post
                      ∧ Forall (λ e, is_bindb e = false ∧ is_evaluateb e = false) pre
                      ∧ Forall (λ e, is_bindb e = false) post
                      ∧ length (List.filter is_bindb evs) = 1
                      ∧ K_compile model fl goal = Ok tt
                      ∧ get_loss_and_gradients run.2
                        = Some (K_function (loss_of fl goal)
                                  (gradients_of K_gradients K_epsilon
                                     (loss_of fl goal)))))).
  { intros pre post w1 res model fl goal Hr Ht Hpre Hpost Hcompile Hg.
    assert (Hpost' : Forall (λ e : event R, is_bindb e = false) post).
    { eapply Forall_impl; [|exact Hpost].
      apply loop_or_display_event_no_bind. }
    assert (Hone : length (List.filter is_bindb (pre ++ EvBindGlobal :: post)) = 1).
    { rewrite List.filter_app. cbn.
      destruct (Hquiet pre Hpre) as [-> _]. by rewrite filter_none. }
    exists (pre ++ EvBindGlobal :: post). rewrite Hr. cbn [fst snd].
    split; [done|]. split; [lia|]. split; [done|].
    right. exists pre, post, model, fl, goal. split; [done|].
    split; [|done].
    eapply Forall_impl; [|exact Hpre]. apply setup_event_quiet. }
  destruct (generate_adversarial_example_cases depth_model_wrapper
              iterations step_size w)
    as [(e & _ & Hr)|[(model & e & w1 & _ & Hsink & Hr)
       |(model & a & b & goal & Hm & Ha & Hb & Hg &
          [(e & _ & Hr)|[(fl & e & _ & _ & Hr)
                        |(fl & res & w2 & Hfl & Hcompile & Hloop & Hr)]])]];
    fold run in Hr.
  - eapply Hfail; [exact Hr|done..|]. by repeat constructor.
  - destruct (get_sink_to_bathtub_inputs_extends _ _ _ _ _ Hsink)
      as [Hg (evs & Ht & Hevs)].
    cbn [heap trace get_loss_and_gradients] in *.
    eapply Hfail; [exact Hr| |done|].
    + by rewrite Ht, <- app_assoc.
    + apply Forall_app. split; [by repeat constructor|done].
  - eapply Hfail; [exact Hr|done..|]. by repeat constructor.
  - eapply Hfail; [exact Hr|done..|]. by repeat constructor.
  - destruct (gradient_ascent_extends _ _ _ _ _ _ Hloop)
      as [Hglobal (loop & Htrace & Hevs)].
    cbn [heap trace get_loss_and_gradients] in *.
    destruct Hr as [(e & -> & Hr)|[-> Hr]].
    + eapply (Hbound (setup_events b ++ [EvGetFinalLayer]) loop);
        [exact Hr| | | |exact Hcompile|exact Hglobal].
      * by rewrite Htrace, <- !app_assoc.
      * by repeat constructor.
      * eapply Forall_impl; [|exact Hevs]. by left.
    + destruct run as [res w'] eqn:Hrun. symmetry in Hr.
      destruct (display_extends _ _ _ _ _ _ _ Hr)
        as [Hglobal' (devs & Htrace' & Hdevs)].
      eapply (Hbound (setup_events b ++ [EvGetFinalLayer]) (loop ++ devs));
        [done| | | |exact Hcompile|by rewrite Hglobal'].
      * by rewrite Htrace', Htrace, <- !app_assoc.
      * by repeat constructor.
      * apply Forall_app. split.
        -- eapply Forall_impl; [|exact Hevs]. by left.
        -- eapply Forall_impl; [|exact Hdevs]. by right.
Qed.

(** *** Edge cases and failures of the loop *)

Lemma run_for_each_app {A} (body : A → M unit) (l1 l2 : list A) w :
  for_each (l1 ++ l2) body w
  = (for_each l1 body;; for_each l2 body) w.
Proof.
  revert w. induction l1 as [|i l1 IH]; intros w; [done|].
  cbn [app for_each]. rewrite !run_bind.
  destruct (body i w) as [[[]|e] w1]; [|done].
  rewrite IH. by rewrite run_bind.
Qed.

(** X1. With an iteration count of zero or less [gradient_ascent] returns
    its argument at once and leaves everything as it is; it does not even
    look the global up, so it works while the global is unbound. With a
    positive count and the global unbound it raises [NameError] before
    anything is evaluated or changed. *)
Theorem gradient_ascent_edge_cases r (iterations : Z) (s : R) w :
  ((iterations ≤ 0)%Z → gradient_ascent r iterations s w = (Ok r, w))
  ∧ ((0 < iterations)%Z → get_loss_and_gradients w = None →
     gradient_ascent r iterations s w = (Raise NameError, w)).
Proof.
  unfold gradient_ascent, range. split.
  - intros Hn. rewrite Z2Nat.nonpos by done. done.
  - intros Hn Hg. destruct (Z.to_nat iterations) as [|n] eqn:Hnat; [lia|].
    cbn [seq fmap list_fmap for_each].
    unfold retrieve_loss_and_gradients. exec. by rewrite Hg.
Qed.

Section Trajectory.
Context (f : kfunction R) (loss grad : ndarray R → ndarray R).
Context (r : loc) (s : R) (x0 : ndarray R) (k : nat).
Hypothesis Hsteps : ∀ t, t < k →
  f [image_after grad s t x0]
  = Ok [loss (image_after grad s t x0); grad (image_after grad s t x0)]
  ∧ shape (grad (image_after grad s t x0)) = shape x0
  ∧ well_formed (grad (image_after grad s t x0)).

Lemma loop_body_run_at (i : Z) w t :
  t < k →
  get_loss_and_gradients w = Some f →
  heap w !! r = Some (image_after grad s t x0) →
  ('(loss, gradients) ← retrieve_loss_and_gradients r;
   emit (EvPrint i loss);;
   isub r (np_scale s gradients)) w
  = (Ok tt,
     World (<[r := image_after grad s (S t) x0]> (heap w))
           (Some f)
           (trace w ++ [EvEvaluate (image_after grad s t x0);
                        EvPrint i (loss (image_after grad s t x0));
                        EvInplaceSub r])).
Proof.
  intros Ht Hf Hx. destruct (Hsteps t Ht) as (Hfx & Hgs & Hgw).
  unfold retrieve_loss_and_gradients, isub. exec.
  rewrite Hf. exec. rewrite Hx. exec. rewrite Hfx. exec.
  unfold list_getitem. cbn [lookup list_lookup]. exec.
  rewrite Hx. exec.
  rewrite np_isub_same;
    [|cbn [np_scale shape]; by rewrite Hgs, image_after_shape
     |by apply np_scale_well_formed].
  exec. rewrite Hf, <- !app_assoc. done.
Qed.

Lemma loop_run_upto m : ∀ t w,
  t + m ≤ k →
  get_loss_and_gradients w = Some f →
  heap w !! r = Some (image_after grad s t x0) →
  for_each (Z.of_nat <$> seq t m) (λ i,
    '(loss, gradients) ← retrieve_loss_and_gradients r;
    emit (EvPrint i loss);;
    isub r (np_scale s gradients)) w
  = (Ok tt,
     World (<[r := image_after grad s (t + m) x0]> (heap w))
           (Some f)
           (trace w ++ loop_events r loss grad s x0 t m)).
Proof.
  induction m as [|m IH]; intros t w Hm Hf Hx.
  - cbn. rewrite Nat.add_0_r, list_insert_id by done.
    unfold loop_events. cbn. rewrite app_nil_r, <- Hf. by destruct w.
  - cbn [seq fmap list_fmap for_each].
    erewrite run_bind_ok; [|apply (loop_body_run_at _ _ t); [lia|done|done]].
    assert (Hr : r < length (heap w)) by by eapply lookup_lt_Some.
    rewrite IH; cbn [heap trace get_loss_and_gradients]; try done; [|lia|].
    + rewrite list_insert_insert_eq.
      replace (t + S m) with (S t + m) by lia.
      unfold loop_events. cbn. rewrite <- app_assoc. done.
    + by rewrite list_lookup_insert_eq.
Qed.

(** X2. When the compiled function raises at iteration [k], after [k]
    iterations that went well, [gradient_ascent] raises the same exception
    at once: the remaining iterations do not run, and the image object is
    left holding the result of the [k] updates already made, which are not
    undone. *)
Theorem gradient_ascent_aborts (iterations : Z) w e :
  k < Z.to_nat iterations →
  get_loss_and_gradients w = Some f →
  heap w !! r = Some x0 →
  f [image_after grad s k x0] = Raise e →
  gradient_ascent r iterations s w
  = (Raise e,
     World (<[r := image_after grad s k x0]> (heap w))
           (Some f)
           (trace w ++ loop_events r loss grad s x0 0 k
              ++ [EvEvaluate (image_after grad s k x0)])).
Proof.
  intros Hk Hf Hx He. unfold gradient_ascent, range.
  replace (Z.to_nat iterations) with (k + S (Z.to_nat iterations - S k)) by lia.
  rewrite seq_app, fmap_app. rewrite run_bind, run_for_each_app, run_bind.
  rewrite (loop_run_upto k 0 w) by (done || lia).
  cbn [seq fmap list_fmap for_each Nat.add].
  assert (Hr : r < length (heap w)) by by eapply lookup_lt_Some.
  unfold retrieve_loss_and_gradients. exec.
  rewrite list_lookup_insert_eq by done. exec. rewrite He.
  by rewrite <- !app_assoc.
Qed.
End Trajectory.

#[local] Instance keeps_shape_refl r : Reflexive (keeps_shape (R:=R) r).
Proof. intros w x Hx. by exists x. Qed.

#[local] Instance keeps_shape_trans r : Transitive (keeps_shape (R:=R) r).
Proof.
  intros w1 w2 w3 H12 H23 x Hx.
  destruct (H12 x Hx) as (x' & Hx' & Hs').
  destruct (H23 x' Hx') as (x'' & Hx'' & Hs'').
  exists x''. split; [done|congruence].
Qed.

Lemma keeps_shape_emit r (e : event R) : always (keeps_shape r) (emit e).
Proof. intros w res w' [= <- <-] x Hx. by exists x. Qed.

Lemma np_isub_shape a b a' : np_isub a b = Ok a' → shape a' = shape a.
Proof.
  unfold np_isub. destruct (broadcast_to (shape a) b); [|done].
  by intros [= <-].
Qed.

Lemma keeps_shape_isub r b : always (keeps_shape r) (isub r b).
Proof.
  intros w res w' Hrun x Hx.
  unfold isub, mbind, M_bind, lift, deref, store, emit in Hrun.
  cbn [heap trace get_loss_and_gradients] in Hrun.
  rewrite Hx in Hrun.
  destruct (np_isub x b) as [x'|e] eqn:Hsub.
  - injection Hrun as <- <-. exists x'. cbn [heap].
    split; [|by eapply np_isub_shape].
    apply list_lookup_insert_eq. by eapply lookup_lt_Some.
  - injection Hrun as <- <-. by exists x.
Qed.

Lemma gradient_ascent_keeps_shape r (iterations : Z) (s : R) :
  always (keeps_shape r) (gradient_ascent r iterations s).
Proof.
  unfold gradient_ascent, retrieve_loss_and_gradients.
  always_with (keeps_shape (R:=R) r)
    ltac:(first [apply keeps_shape_isub | apply keeps_shape_emit]).
Qed.

(** X3. Whether it returns or raises, [gradient_ascent] creates no object,
    changes no object but the one it is given, which keeps its shape
    whatever the shape of the gradients (the update is in place), leaves the
    global as it is, and does nothing visible but evaluate, print and
    update; when it returns, it returns its argument. *)
Theorem gradient_ascent_touches_only_its_argument r (iterations : Z) (s : R) w :
  let run := gradient_ascent r iterations s w in
  length (heap run.2) = length (heap w)
  ∧ (∀ l, l ≠ r → heap run.2 !! l = heap w !! l)
  ∧ (∀ x, heap w !! r = Some x →
       ∃ x', heap run.2 !! r = Some x' ∧ shape x' = shape x)
  ∧ get_loss_and_gradients run.2 = get_loss_and_gradients w
  ∧ (∃ evs, trace run.2 = trace w ++ evs ∧ Forall is_loop_event evs)
  ∧ (run.1 = Ok r ∨ ∃ e, run.1 = Raise e).
Proof.
  intros run. destruct run as [res w'] eqn:Hrun. subst run. cbn [fst snd].
  destruct (gradient_ascent_frame _ _ _ _ _ _ Hrun) as [Hlen Hframe].
  destruct (gradient_ascent_extends _ _ _ _ _ _ Hrun) as [Hglobal Hevs].
  pose proof (gradient_ascent_keeps_shape _ _ _ _ _ _ Hrun) as Hshape.
  do 5 (split; [done|]).
  destruct res as [v|e]; [left|right; by exists e].
  by rewrite (gradient_ascent_result _ _ _ _ _ _ Hrun).
Qed.

(** *** Failures of the display *)

Lemma image_shown_cases a (is_input : bool) :
  (not_displayable a → image_shown a is_input = Raise IndexError)
  ∧ (¬ not_displayable a → ∃ img, image_shown a is_input = Ok img).
Proof.
  unfold not_displayable, image_shown, getitem0, to_multichannel, shape2,
    getitem_all_all_0, stack3_axis2.
  destruct a as [[|d [|h [|wd [|c rest]]]] dat]; cbn;
    try (split; [intros _|intros []; left; lia];
         try done; by destruct (decide (d = 0)), is_input).
  destruct (decide (d = 0)) as [->|Hd]; cbn.
  { split; [done|]. intros []. by right; left. }
  destruct (decide (c = 0)) as [->|Hc]; cbn.
  { split; [by destruct is_input|]. intros []. by right; right. }
  split; [intros [?|[[=]|[=]]]; (lia || done)|]. intros _.
  destruct is_input; [|by eexists].
  destruct (decide (c = 3)); by eexists.
Qed.

(** X6. [display_image] gets as far as [plt.imshow] exactly when the array
    has at least 4 axes, a batch that is not empty and a channel axis that
    is not empty, for an input and for a depth output alike. On any other
    array it raises [IndexError] after the figure has been opened and
    before [plt.imshow] is called. When [plt.imshow] is called and returns,
    [plt.show] is called and [display_image] returns; when [plt.imshow]
    raises, [display_image] raises the same exception and [plt.show] is
    not called. The figure is not closed in either failure. *)
Theorem display_image_shows_or_raises l (is_input : bool) w a :
  heap w !! l = Some a →
  (not_displayable a →
     display_image plt_imshow l is_input w
     = (Raise IndexError,
        World (heap w) (get_loss_and_gradients w) (trace w ++ [EvFigure])))
  ∧ (¬ not_displayable a →
     ∃ img,
       image_shown a is_input = Ok img
       ∧ (plt_imshow img = Ok tt →
          display_image plt_imshow l is_input w
          = (Ok tt,
             World (heap w) (get_loss_and_gradients w)
               (trace w ++ [EvFigure; EvImshow img; EvShow])))
       ∧ (∀ e, plt_imshow img = Raise e →
          display_image plt_imshow l is_input w
          = (Raise e,
             World (heap w) (get_loss_and_gradients w)
               (trace w ++ [EvFigure; EvImshow img])))).
Proof.
  intros Hl. destruct (image_shown_cases a is_input) as [Hbad Hgood]. split.
  - intros Hna. by apply (display_image_run_raise _ _ _ a), Hbad.
  - intros Hna. destruct (Hgood Hna) as (img & Himg). exists img.
    split; [done|].
    rewrite (display_image_run _ _ _ a img) by done. unfold imshow_outcome.
    split; [by intros ->|]. by intros e ->.
Qed.

Lemma call_predict_run (depth_model_wrapper : DepthModelWrapper R Model)
    (model : Model) l w a (out : result (ndarray R)) :
  heap w !! l = Some a →
  predict depth_model_wrapper model a = out →
  call_predict depth_model_wrapper model l w
  = match out with
    | Ok o => (Ok (length (heap w)),
               World (heap w ++ [o]) (get_loss_and_gradients w)
                 (trace w ++ [EvPredict a]))
    | Raise e => (Raise e,
                  World (heap w) (get_loss_and_gradients w)
                    (trace w ++ [EvPredict a]))
    end.
Proof.
  intros Hl <-. unfold call_predict. exec. rewrite Hl.
  by destruct (predict depth_model_wrapper model a).
Qed.

(** X7. [display] runs the model on both images before it shows anything:
    when the prediction on the original raises, or the prediction on the
    altered image does, [display] raises that exception and no figure has
    been opened, not even for the original image. *)
Theorem display_predicts_before_showing
    (depth_model_wrapper : DepthModelWrapper R Model) (model : Model)
    original_image altered_image w original altered e :
  heap w !! original_image = Some original →
  heap w !! altered_image = Some altered →
  (predict depth_model_wrapper model original = Raise e →
     display plt_imshow depth_model_wrapper model original_image altered_image w
     = (Raise e,
        World (heap w) (get_loss_and_gradients w)
          (trace w ++ [EvPredict original])))
  ∧ (∀ original_output,
       predict depth_model_wrapper model original = Ok original_output →
       predict depth_model_wrapper model altered = Raise e →
       display plt_imshow depth_model_wrapper model original_image
         altered_image w
       = (Raise e,
          World (heap w ++ [original_output]) (get_loss_and_gradients w)
            (trace w ++ [EvPredict original; EvPredict altered]))).
Proof.
  intros Ho Ha. unfold display. split.
  - intros Hp. rewrite run_bind.
    by rewrite (call_predict_run _ _ _ _ original (Raise e)).
  - intros oo Hp1 Hp2. rewrite run_bind.
    rewrite (call_predict_run _ _ _ _ original (Ok oo)) by done.
    rewrite run_bind.
    rewrite (call_predict_run _ _ _ _ altered (Raise e)); cbn [heap]; [| |done].
    + cbn [get_loss_and_gradients trace]. by rewrite <- app_assoc.
    + rewrite lookup_app_l; [done|]. by eapply lookup_lt_Some.
Qed.

#[local] Instance heap_prefix_refl : Reflexive (heap_prefix (R:=R)).
Proof. intros w. exists []. by rewrite app_nil_r. Qed.

#[local] Instance heap_prefix_trans : Transitive (heap_prefix (R:=R)).
Proof.
  intros w1 w2 w3 [c1 H1] [c2 H2]. exists (c1 ++ c2).
  by rewrite H2, H1, app_assoc.
Qed.

Lemma heap_prefix_emit (e : event R) : always heap_prefix (emit e).
Proof. intros w res w' [= <- <-]. exists []. cbn. by rewrite app_nil_r. Qed.

Lemma heap_prefix_alloc a : always heap_prefix (alloc a).
Proof. intros w res w' [= <- <-]. by exists [a]. Qed.

Lemma display_heap_prefix (depth_model_wrapper : DepthModelWrapper R Model)
    (model : Model) original_image altered_image :
  always heap_prefix
    (display plt_imshow depth_model_wrapper model original_image altered_image).
Proof.
  unfold display, call_predict, display_image.
  always_with (heap_prefix (R:=R))
    ltac:(first [apply heap_prefix_alloc | apply heap_prefix_emit
                | match goal with |- always _ (if ?b then _ else _) =>
                    destruct b end]).
Qed.

(** X8. Whether it returns or raises, [display] leaves every array that
    exists as it is (the image objects are read, never written; the predicted
    outputs are new objects), leaves the global as it is, and does nothing
    visible but predict and plot. *)
Theorem display_changes_no_array
    (depth_model_wrapper : DepthModelWrapper R Model) (model : Model)
    original_image altered_image w :
  let run := display plt_imshow depth_model_wrapper model original_image
               altered_image w in
  (∃ created, heap run.2 = heap w ++ created)
  ∧ (∀ l a, heap w !! l = Some a → heap run.2 !! l = Some a)
  ∧ get_loss_and_gradients run.2 = get_loss_and_gradients w
  ∧ (∃ evs, trace run.2 = trace w ++ evs ∧ Forall is_display_event evs).
Proof.
  intros run. destruct run as [res w'] eqn:Hrun. subst run. cbn [fst snd].
  destruct (display_heap_prefix _ _ _ _ _ _ _ Hrun) as [created Hheap].
  destruct (display_extends _ _ _ _ _ _ _ Hrun) as [Hglobal Hevs].
  split; [by exists created|]. split; [|done].
  intros l a Hl. rewrite Hheap. by apply lookup_app_l_Some.
Qed.

(** *** The contract of [get_sink_to_bathtub_inputs] *)

(** X9. When the two images load and the model predicts on the bathtub
    image, [get_sink_to_bathtub_inputs] returns two new, distinct objects:
    the sink image as loaded and the depth predicted for the bathtub image
    (the bathtub image itself is not returned). It has made three calls, in
    this order: load the sink, load the bathtub, predict on the bathtub; the
    arrays that existed and the global are as they were. *)
Theorem get_sink_to_bathtub_inputs_returns
    (depth_model_wrapper : DepthModelWrapper R Model) (model : Model)
    w a b goal :
  load_image depth_model_wrapper SINK_IMAGE = Ok a →
  load_image depth_model_wrapper BATHTUB_IMAGE = Ok b →
  predict depth_model_wrapper model b = Ok goal →
  ∃ input_image target_depth_output w',
    get_sink_to_bathtub_inputs depth_model_wrapper model w
    = (Ok (input_image, target_depth_output), w')
    ∧ input_image ≠ target_depth_output
    ∧ heap w !! input_image = None
    ∧ heap w !! target_depth_output = None
    ∧ heap w' !! input_image = Some a
    ∧ heap w' !! target_depth_output = Some goal
    ∧ (∀ l x, heap w !! l = Some x → heap w' !! l = Some x)
    ∧ get_loss_and_gradients w' = get_loss_and_gradients w
    ∧ trace w'
      = trace w ++ [EvLoadImage SINK_IMAGE; EvLoadImage BATHTUB_IMAGE;
                    EvPredict b].
Proof.
  intros Ha Hb Hg. eexists _, _, _.
  split; [by apply get_sink_to_bathtub_inputs_run|].
  cbn [heap trace get_loss_and_gradients].
  split; [lia|]. split; [apply lookup_ge_None; lia|].
  split; [apply lookup_ge_None; lia|].
  split; [by apply list_lookup_middle|]. split.
  { rewrite lookup_app_r by lia.
    by replace (length (heap w) + 2 - length (heap w)) with 2 by lia. }
  split; [|done]. intros l x Hl. by apply lookup_app_l_Some.
Qed.

(** *** The script from end to end *)

(** X10. When the set-up succeeds and the compiled function computes a loss
    and a gradient on arrays of the sink image's shape, the run gets to
    [display] with two different objects: the altered image, which is the
    sink image after [iterations] updates [x ← x − step_size × gradient], and
    the original, which is the sink image as loaded. Up to there it has done
    the set-up calls, bound the global once, and run the loop. This is so
    whenever the framework accepts the loss and the gradient; when it
    rejects them the run raises what the framework raised, before the
    global is bound. *)
Theorem generate_adversarial_example_alters_by_updates
    (depth_model_wrapper : DepthModelWrapper R Model) (iterations : Z)
    (step_size : R) w model a b goal fl loss grad :
  initialize_model depth_model_wrapper = Ok model →
  load_image depth_model_wrapper SINK_IMAGE = Ok a →
  load_image depth_model_wrapper BATHTUB_IMAGE = Ok b →
  predict depth_model_wrapper model b = Ok goal →
  get_final_layer depth_model_wrapper model = Ok fl →
  well_formed a →
  computes
    (K_function (loss_of fl goal)
       (gradients_of K_gradients K_epsilon (loss_of fl goal)))
    loss grad (shape a) →
  let n := Z.to_nat iterations in
  let input_image := length (heap w) in
  let original_image := length (heap w) + 3 in
  generate_adversarial_example K_gradients K_epsilon K_compile plt_imshow
    depth_model_wrapper iterations step_size w
  = match K_compile model fl goal with
    | Ok _ =>
        display plt_imshow depth_model_wrapper model original_image input_image
          (World (heap w ++ [image_after grad step_size n a; b; goal; a])
             (Some (K_function (loss_of fl goal)
                      (gradients_of K_gradients K_epsilon (loss_of fl goal))))
             (trace w ++ setup_events b ++ [EvGetFinalLayer; EvBindGlobal]
                ++ loop_events input_image loss grad step_size a 0 n))
    | Raise e =>
        (Raise e,
         World (heap w ++ [a; b; goal]) (get_loss_and_gradients w)
           (trace w ++ setup_events b ++ [EvGetFinalLayer]))
    end.
Proof.
  intros Hm Ha Hb Hg Hfl Hwf Hc n input_image original_image.
  destruct (generate_adversarial_example_cases depth_model_wrapper
              iterations step_size w)
    as [(e & Hm' & _)|[(model' & e & w1 & Hm' & Hsink & _)
       |(model' & a' & b' & goal' & Hm' & Ha' & Hb' & Hg' &
          [(e & Hfl' & _)|[(fl' & e & Hfl' & Hcompile & Hr)
                          |(fl' & res & w2 & Hfl' & Hcompile & Hloop & Hr)]])]];
    rewrite Hm in Hm'; try discriminate; injection Hm' as <-.
  - by rewrite (get_sink_to_bathtub_inputs_run _ _ _ a b goal) in Hsink.
  - rewrite Hfl in Hfl'. discriminate.
  - rewrite Ha in Ha'. injection Ha' as <-.
    rewrite Hb in Hb'. injection Hb' as <-.
    rewrite Hg in Hg'. injection Hg' as <-.
    rewrite Hfl in Hfl'. injection Hfl' as <-.
    by rewrite Hcompile.
  - rewrite Ha in Ha'. injection Ha' as <-.
    rewrite Hb in Hb'. injection Hb' as <-.
    rewrite Hg in Hg'. injection Hg' as <-.
    rewrite Hfl in Hfl'. injection Hfl' as <-.
    rewrite Hcompile.
    erewrite gradient_ascent_run in Hloop; [|done| |done|done].
    2: { cbn [heap]. by apply list_lookup_middle. }
    injection Hloop as <- <-.
    destruct Hr as [(e & [=] & _)|[_ ->]].
    cbn [heap trace get_loss_and_gradients].
    rewrite insert_app_r_alt by lia. rewrite Nat.sub_diag. cbn [insert list_insert].
    by rewrite <- !app_assoc.
Qed.

(** *** The loss and the gradient at particular points *)

Lemma zip_with_sub_diag (d : list R) :
  (∀ v : R, fsub v v = fzero) →
  zip_with fsub d d = replicate (length d) fzero.
Proof. intros Hlaw. induction d as [|v d IH]; cbn; [done|]. by rewrite Hlaw, IH. Qed.

Lemma sum_replicate_zero (f : R → R) n :
  f fzero = fzero →
  fadd fzero fzero = fzero →
  foldr fadd fzero (f <$> replicate n fzero) = fzero.
Proof.
  intros Hf Hadd. induction n as [|n IH]; cbn; [done|]. by rewrite IH, Hf, Hadd.
Qed.

(** X11. The loss is zero at the target: for an input on which the final
    layer yields exactly the target depth, the loss evaluates to zero. The
    arithmetic is assumed to satisfy [v − v = 0], [0 × 0 = 0], [0 + 0 = 0]
    and [0 / d = 0]. *)
Theorem loss_vanishes_at_target
    (final_layer_output : sym R (ndarray R)) (goal_output x : ndarray R) :
  final_layer_output x = Ok goal_output →
  well_formed goal_output →
  (∀ v : R, fsub v v = fzero) →
  fmul fzero fzero = fzero →
  fadd fzero fzero = fzero →
  (∀ d : R, fdiv fzero d = fzero) →
  loss_of final_layer_output goal_output x = Ok fzero.
Proof.
  intros Hfl Hwf Hsub Hmul Hadd Hdiv.
  unfold loss_of, scale_factor, K_div, K_sum, K_square, K_sub, K_constant,
    K_prod, K_cast_shape.
  rewrite Hfl. cbn [mbind result_bind].
  unfold np_sub. rewrite np_binary_same by done.
  cbn [mbind result_bind]. unfold tf_sum, tf_square. cbn [data].
  rewrite zip_with_sub_diag by done.
  rewrite (sum_replicate_zero (λ v, fmul v v)) by done.
  by rewrite Hdiv.
Qed.

(** X12. A gradient that is zero everywhere stays zero: the mean of its
    absolute values is zero, the divisor is the floor and not zero, and the
    normalised gradient is the raw gradient. The arithmetic is assumed to
    satisfy [|0| = 0], [0 + 0 = 0] and [0 / d = 0], and the floor to be at
    least zero. *)
Theorem zero_gradient_stays_zero (loss : sym R R) (x gv : ndarray R) :
  K_gradients loss x = Ok gv →
  data gv = replicate (length (data gv)) fzero →
  fabs fzero = fzero →
  fadd fzero fzero = fzero →
  (∀ d : R, fdiv fzero d = fzero) →
  fleb fzero K_epsilon = true →
  normalizer K_epsilon (K_gradients loss) x = Ok K_epsilon
  ∧ gradients_of K_gradients K_epsilon loss x = Ok gv.
Proof.
  intros Hg Hzero Habs Hadd Hdiv Heps.
  assert (Hn : normalizer K_epsilon (K_gradients loss) x = Ok K_epsilon).
  { unfold normalizer, K_maximum, K_mean, K_abs. rewrite Hg.
    cbn [mbind result_bind]. unfold tf_mean, tf_sum, tf_abs. cbn [data].
    rewrite Hzero, sum_replicate_zero, Hdiv by done.
    unfold tf_maximum. by rewrite Heps. }
  split; [done|].
  unfold gradients_of, K_div_scalar. rewrite Hg, Hn.
  cbn [mbind result_bind]. unfold tf_div_scalar. f_equal.
  destruct gv as [sh d]. cbn [shape data] in *. f_equal.
  rewrite Hzero at 2. rewrite Hzero, fmap_replicate, Hdiv.
  by rewrite length_replicate.
Qed.

End ScriptFacts.

(** ** The script on the toy instance *)

Example to_multichannel_gray :
  to_multichannel gray_image
  = Ok (Ndarray [1; 2; 3] [5%Z; 5%Z; 5%Z; 7%Z; 7%Z; 7%Z]).
Proof. reflexivity. Qed.

Example to_multichannel_rgba :
  to_multichannel rgba_image
  = Ok (Ndarray [1; 2; 3] [1%Z; 1%Z; 1%Z; 5%Z; 5%Z; 5%Z]).
Proof. reflexivity. Qed.

Lemma Z_sub_sub (u v t : Z) : fsub (fsub u v) t = fsub u (fadd v t).
Proof. cbn. lia. Defined.

Lemma Z_sub_zero (u : Z) : fsub u fzero = u.
Proof. cbn. lia. Defined.

Lemma toy_quadratic_computes :
  computes toy_quadratic toy_quadratic_loss toy_quadratic_grad [2].
Proof.
  intros x Hs Hwf. split; [reflexivity|]. split; [exact Hs|].
  by apply np_scale_well_formed.
Defined.

Lemma gradient_ascent_iteration_count_witness :
  ∃ w' evs,
    gradient_ascent 0 3%Z 2%Z toy_world = (Ok 0, w')
    ∧ trace w' = evs
    ∧ length evs = 9
    ∧ length (List.filter is_evaluateb evs) = 3
    ∧ length (List.filter is_inplace_subb evs) = 3.
Proof.
  destruct (gradient_ascent_iteration_count toy_quadratic toy_quadratic_loss
              toy_quadratic_grad 0 3%Z 2%Z toy_vector toy_world
              eq_refl eq_refl eq_refl toy_quadratic_computes)
    as (w' & evs & Hrun & Htrace & _ & Hlen & Heval & Hupd & _).
  exists w', evs. split; [exact Hrun|]. split; [exact Htrace|].
  split; [exact Hlen|]. split; [exact Heval|exact Hupd].
Defined.

Lemma to_multichannel_three_and_one_witness :
  to_multichannel rgb_image = Ok rgb_image
  ∧ ∃ out,
      to_multichannel gray_image = Ok out
      ∧ shape out = [1; 2; 3]
      ∧ pixel out 0 1 2 = pixel gray_image 0 1 0.
Proof.
  destruct (to_multichannel_three_and_one rgb_image) as (H3 & _ & _).
  destruct (to_multichannel_three_and_one gray_image) as (_ & _ & H1).
  split; [exact (H3 eq_refl)|].
  destruct (H1 1 2 eq_refl eq_refl) as (out & Hout & Hs & _ & Hpx).
  exists out. split; [exact Hout|]. split; [exact Hs|].
  apply Hpx; lia.
Defined.

Lemma to_multichannel_keeps_channel_0_witness :
  ∃ out,
    to_multichannel rgba_image = Ok out
    ∧ shape out = [1; 2; 3]
    ∧ pixel out 0 1 2 = pixel rgba_image 0 1 0.
Proof.
  destruct (to_multichannel_keeps_channel_0 rgba_image 1 2 4
              eq_refl eq_refl ltac:(lia) ltac:(lia))
    as (out & Hout & Hs & _ & Hpx).
  exists out. split; [exact Hout|]. split; [exact Hs|]. apply Hpx; lia.
Defined.

(** C10, counterexample. An image with no channel has a channel dimension
    other than 3, and [to_multichannel] raises on it: there is no channel 0
    to keep. *)
Lemma to_multichannel_no_channel_raises :
  well_formed no_channel_image
  ∧ channels no_channel_image = Some 0
  ∧ to_multichannel no_channel_image = Raise IndexError
  ∧ ¬ (∀ (image : ndarray Z) c,
         channels image = Some c → c ≠ 3 → well_formed image →
         ∃ out, to_multichannel image = Ok out).
Proof.
  split; [reflexivity|]. split; [reflexivity|]. split; [reflexivity|].
  intros Hall.
  destruct (Hall no_channel_image 0 eq_refl ltac:(lia) eq_refl) as (out & Hout).
  discriminate Hout.
Qed.

(** A colour batch is shown as it is, a grey batch with its channel
    repeated, a depth output as a 2-dimensional array. A batch with one
    axis too many and a batch of height zero are handed to [plt.imshow] all
    the same, which raises: nothing is shown. *)
Lemma display_image_channels_witness :
  display_image toy_imshow 0 true display_world
  = (Ok tt, World [rgb_batch; gray_batch] None (display_events rgb_image))
  ∧ (∃ img,
       display_image toy_imshow 1 true display_world
       = (Ok tt, World [rgb_batch; gray_batch] None (display_events img))
       ∧ shape img = [1; 2; 3]
       ∧ pixel img 0 1 2 = pixel (Ndarray [1; 2; 1] [40%Z; 80%Z]) 0 1 0)
  ∧ (∃ img,
       display_image toy_imshow 1 false display_world
       = (Ok tt, World [rgb_batch; gray_batch] None (display_events img))
       ∧ shape img = [1; 2]
       ∧ data img !! 1 = pixel (Ndarray [1; 2; 1] [40%Z; 80%Z]) 0 1 0)
  ∧ display_image toy_imshow 0 true odd_display_world
    = (Raise (OtherError "TypeError"),
       World [rank5_batch; flat_batch] None
         [EvFigure;
          EvImshow (Ndarray [1; 2; 3; 2]
                      [1%Z; 2%Z; 3%Z; 4%Z; 5%Z; 6%Z; 7%Z; 8%Z; 9%Z; 10%Z;
                       11%Z; 12%Z])])
  ∧ display_image toy_imshow 1 true odd_display_world
    = (Raise ValueError,
       World [rank5_batch; flat_batch] None
         [EvFigure; EvImshow (Ndarray [0; 2; 3] [])]).
Proof.
  destruct (display_image_channels (Model:=unit) toy_imshow 0 display_world
              rgb_batch rgb_image eq_refl eq_refl) as (Hrgb & _ & _ & _).
  destruct (display_image_channels (Model:=unit) toy_imshow 1 display_world
              gray_batch (Ndarray [1; 2; 1] [40%Z; 80%Z]) eq_refl eq_refl)
    as (_ & Hin & Hout & Hok & _).
  destruct (display_image_channels (Model:=unit) toy_imshow 0 odd_display_world
              rank5_batch
              (Ndarray [1; 2; 3; 2]
                 [1%Z; 2%Z; 3%Z; 4%Z; 5%Z; 6%Z; 7%Z; 8%Z; 9%Z; 10%Z;
                  11%Z; 12%Z]) eq_refl eq_refl) as (Hrank5 & _).
  destruct (display_image_channels (Model:=unit) toy_imshow 1 odd_display_world
              flat_batch (Ndarray [0; 2; 3] []) eq_refl eq_refl)
    as (Hflat & _).
  split; [exact (Hrgb eq_refl)|]. split; [|split; [|split]].
  - destruct (Hin 1 2 1 eq_refl eq_refl ltac:(lia) ltac:(lia))
      as (img & Hrun & Hs & Hpx).
    exists img. split; [|split; [exact Hs|apply Hpx; lia]].
    rewrite Hrun. apply Hok. unfold toy_imshow. rewrite Hs. reflexivity.
  - destruct (Hout 1 2 1 eq_refl eq_refl ltac:(lia))
      as (img & Hrun & Hs & Hpx).
    exists img. split; [|split; [exact Hs|apply (Hpx 0 1); lia]].
    rewrite Hrun. apply Hok. unfold toy_imshow. rewrite Hs. reflexivity.
  - exact (Hrank5 eq_refl).
  - exact (Hflat eq_refl).
Defined.

(** C6, counterexample. A predicted depth output is not shown the way the
    inputs are: of a 1-channel output the single channel is shown as a
    2-dimensional array, not broadcast to 3 channels, and of a 3-channel
    output only channel 0 is shown, not the output as it is. *)
Lemma display_depth_output_not_multichannel :
  shown (trace (display_image toy_imshow 1 false display_world).2)
  = [Ndarray [1; 2] [40%Z; 80%Z]]
  ∧ image_shown gray_batch true
    = Ok (Ndarray [1; 2; 3] [40%Z; 40%Z; 40%Z; 80%Z; 80%Z; 80%Z])
  ∧ shown (trace (display_image toy_imshow 0 false display_world).2)
    = [Ndarray [1; 2] [1%Z; 4%Z]]
  ∧ image_shown rgb_batch true = Ok rgb_image
  ∧ ¬ (∀ l (is_input : bool) a first,
         heap display_world !! l = Some a →
         getitem0 a = Ok first →
         ∃ img,
           to_multichannel first = Ok img
           ∧ shown (trace (display_image toy_imshow l is_input display_world).2)
             = [img]).
Proof.
  split; [reflexivity|]. split; [reflexivity|]. split; [reflexivity|].
  split; [reflexivity|].
  intros Hall.
  destruct (Hall 1 false gray_batch (Ndarray [1; 2; 1] [40%Z; 80%Z])
              eq_refl eq_refl) as (img & Himg & Hshown).
  vm_compute in Himg. vm_compute in Hshown. congruence.
Qed.

Lemma generate_displays_loaded_image_witness :
  (toy_run toy_wrapper).1 = Ok tt
  ∧ load_image toy_wrapper SINK_IMAGE = Ok toy_sink
  ∧ heap (toy_run toy_wrapper).2 !! 3 = Some toy_sink.
Proof.
  destruct (toy_run toy_wrapper) as [res w'] eqn:Hrun.
  assert (Hres : res = Ok tt).
  { pose proof (f_equal fst Hrun) as E. vm_compute in E. congruence. }
  destruct (generate_displays_loaded_image toy_gradients toy_epsilon
              toy_compile toy_imshow
              toy_wrapper 3%Z 2%Z initial_world res w' Hrun) as [_ Hret].
  destruct (Hret Hres)
    as (model & a & b & altered & oo & ao & s1 & s2 & s3 & s4 & loop &
        _ & Ha & _ & Horig & _).
  split; [exact Hres|]. split; [reflexivity|].
  cbn [snd]. vm_compute in Ha. injection Ha as <-. exact Horig.
Defined.

(** What the toy run shows: the grey sink image made 3-channel, its depth
    as a 2-dimensional array, and the same for the altered image. *)
Example toy_run_shown :
  shown (trace (toy_run toy_wrapper).2)
  = [Ndarray [1; 2; 3] [40%Z; 40%Z; 40%Z; 80%Z; 80%Z; 80%Z];
     Ndarray [1; 2] [40%Z; 80%Z];
     Ndarray [1; 2; 3] [40%Z; 40%Z; 40%Z; 74%Z; 74%Z; 74%Z];
     Ndarray [1; 2] [40%Z; 74%Z]]
  ∧ heap (toy_run toy_wrapper).2 !! 0
    = Some (Ndarray [1; 1; 2; 1] [40%Z; 74%Z]).
Proof. split; vm_compute; reflexivity. Qed.

Lemma get_sink_to_bathtub_inputs_propagates_witness :
  toy_run no_sink_wrapper
  = (Raise (OtherError "FileNotFoundError"),
     World [] None
       [EvSetLearningPhase 0; EvInitializeModel; EvLoadImage SINK_IMAGE])
  ∧ get_sink_to_bathtub_inputs no_bathtub_wrapper tt initial_world
    = (Raise (OtherError "FileNotFoundError"),
       World [toy_sink] None
         [EvLoadImage SINK_IMAGE; EvLoadImage BATHTUB_IMAGE])
  ∧ get_sink_to_bathtub_inputs failing_predict_wrapper tt initial_world
    = (Raise (OtherError "InvalidArgumentError"),
       World [toy_sink; toy_bathtub] None
         [EvLoadImage SINK_IMAGE; EvLoadImage BATHTUB_IMAGE;
          EvPredict toy_bathtub]).
Proof.
  destruct (get_sink_to_bathtub_inputs_propagates toy_gradients toy_epsilon
              toy_compile toy_imshow
              no_sink_wrapper tt initial_world (OtherError "FileNotFoundError"))
    as (_ & _ & _ & Hcaller).
  destruct (get_sink_to_bathtub_inputs_propagates toy_gradients toy_epsilon
              toy_compile toy_imshow
              no_sink_wrapper tt
              (World [] None [EvSetLearningPhase 0; EvInitializeModel])
              (OtherError "FileNotFoundError"))
    as (Hsink & _ & _ & _).
  destruct (get_sink_to_bathtub_inputs_propagates toy_gradients toy_epsilon
              toy_compile toy_imshow
              no_bathtub_wrapper tt initial_world
              (OtherError "FileNotFoundError"))
    as (_ & Hbathtub & _ & _).
  destruct (get_sink_to_bathtub_inputs_propagates toy_gradients toy_epsilon
              toy_compile toy_imshow
              failing_predict_wrapper tt initial_world
              (OtherError "InvalidArgumentError"))
    as (_ & _ & Hpredict & _).
  split; [|split].
  - apply Hcaller; [reflexivity|]. exact (Hsink eq_refl).
  - exact (Hbathtub toy_sink eq_refl eq_refl).
  - exact (Hpredict toy_sink toy_bathtub eq_refl eq_refl eq_refl).
Defined.

(** The toy run assigns the global once. With a target that does not
    broadcast against the final layer the framework rejects the loss: the
    run raises with the global unbound, even when no iteration is asked
    for. *)
Lemma global_assigned_once_before_loop_witness :
  length (List.filter is_bindb (trace (toy_run toy_wrapper).2)) = 1
  ∧ generate_adversarial_example toy_gradients toy_epsilon toy_compile
      toy_imshow mismatched_predict_wrapper 0%Z 2%Z initial_world
    = (Raise ValueError,
       World [toy_sink; toy_bathtub; mismatched_target] None
         (setup_events toy_bathtub ++ [EvGetFinalLayer])).
Proof.
  destruct (global_assigned_once_before_loop toy_gradients toy_epsilon
              toy_compile toy_imshow toy_wrapper 3%Z 2%Z initial_world)
    as [(evs & Htrace & _ & Hok & _) _].
  destruct (global_assigned_once_before_loop toy_gradients toy_epsilon
              toy_compile toy_imshow mismatched_predict_wrapper 0%Z 2%Z
              initial_world)
    as [_ Hrejected].
  split.
  - rewrite Htrace. apply Hok. vm_compute. reflexivity.
  - exact (Hrejected tt toy_sink toy_bathtub mismatched_target toy_final_layer
             ValueError eq_refl eq_refl eq_refl eq_refl eq_refl eq_refl).
Defined.

(** C9, counterexample. On a machine where the sink image is missing the
    run raises before the assignment: the global is assigned zero times and
    is still unbound at the end. *)
Lemma global_never_assigned_when_sink_missing :
  (toy_run no_sink_wrapper).1 = Raise (OtherError "FileNotFoundError")
  ∧ List.filter is_bindb (trace (toy_run no_sink_wrapper).2) = []
  ∧ get_loss_and_gradients (toy_run no_sink_wrapper).2 = None
  ∧ ¬ (∀ depth_model_wrapper : DepthModelWrapper Z unit,
         length (List.filter is_bindb (trace (toy_run depth_model_wrapper).2))
         = 1).
Proof.
  split; [reflexivity|]. split; [reflexivity|]. split; [reflexivity|].
  intros Hall. specialize (Hall no_sink_wrapper). vm_compute in Hall.
  discriminate Hall.
Qed.

(** ** Further runs on the toy instances *)

Lemma gradient_ascent_edge_cases_witness :
  gradient_ascent 0 (-2)%Z 2%Z (@initial_world Z) = (Ok 0, initial_world)
  ∧ gradient_ascent 0 3%Z 2%Z (World [toy_vector] None [])
    = (Raise NameError, World [toy_vector] None []).
Proof.
  destruct (gradient_ascent_edge_cases 0 (-2)%Z 2%Z (@initial_world Z))
    as [Hnone _].
  destruct (gradient_ascent_edge_cases 0 3%Z 2%Z (World [toy_vector] None []))
    as [_ Hunbound].
  split; [apply Hnone; lia|apply Hunbound; [lia|reflexivity]].
Defined.

Lemma picky_quadratic_first_step (t : nat) :
  t < 1 →
  picky_quadratic [image_after toy_quadratic_grad 2%Z t toy_vector]
  = Ok [toy_quadratic_loss (image_after toy_quadratic_grad 2%Z t toy_vector);
        toy_quadratic_grad (image_after toy_quadratic_grad 2%Z t toy_vector)]
  ∧ shape (toy_quadratic_grad (image_after toy_quadratic_grad 2%Z t toy_vector))
    = shape toy_vector
  ∧ well_formed
      (toy_quadratic_grad (image_after toy_quadratic_grad 2%Z t toy_vector)).
Proof.
  intros Ht. assert (t = 0) as -> by lia.
  split; [vm_compute; reflexivity|]. split; reflexivity.
Defined.

(** The second evaluation is rejected: one update has been made and stays. *)
Lemma gradient_ascent_aborts_witness :
  gradient_ascent 0 3%Z 2%Z picky_world
  = (Raise (OtherError "InvalidArgumentError"),
     World [Ndarray [2] [(-3)%Z; (-6)%Z]] (Some picky_quadratic)
       [EvEvaluate toy_vector; EvPrint 0%Z (Ndarray [] [5%Z]); EvInplaceSub 0;
        EvEvaluate (Ndarray [2] [(-3)%Z; (-6)%Z])]).
Proof.
  exact (gradient_ascent_aborts picky_quadratic toy_quadratic_loss
           toy_quadratic_grad 0 2%Z toy_vector 1 picky_quadratic_first_step
           3%Z picky_world (OtherError "InvalidArgumentError")
           ltac:(vm_compute; lia) eq_refl eq_refl
           ltac:(vm_compute; reflexivity)).
Defined.

Lemma to_multichannel_well_formed_witness :
  ∃ h w c rest,
    shape rank4_image = h :: w :: c :: rest
    ∧ shape (Ndarray [1; 2; 3; 2]
               [1%Z; 2%Z; 1%Z; 2%Z; 1%Z; 2%Z; 5%Z; 6%Z; 5%Z; 6%Z; 5%Z; 6%Z])
      = h :: w :: 3 :: rest
    ∧ well_formed
        (Ndarray [1; 2; 3; 2]
           [1%Z; 2%Z; 1%Z; 2%Z; 1%Z; 2%Z; 5%Z; 6%Z; 5%Z; 6%Z; 5%Z; 6%Z]).
Proof.
  exact (to_multichannel_well_formed rank4_image _ eq_refl eq_refl).
Defined.

Lemma display_image_shows_or_raises_witness :
  display_image toy_imshow 0 false flat_depth_world
  = (Raise IndexError, World [flat_depth] None [EvFigure])
  ∧ display_image toy_imshow 0 true flat_depth_world
    = (Raise IndexError, World [flat_depth] None [EvFigure])
  ∧ display_image toy_imshow 1 false display_world
    = (Ok tt,
       World [rgb_batch; gray_batch] None
         (display_events (Ndarray [1; 2] [40%Z; 80%Z])))
  ∧ display_image toy_imshow 0 true odd_display_world
    = (Raise (OtherError "TypeError"),
       World [rank5_batch; flat_batch] None
         [EvFigure;
          EvImshow (Ndarray [1; 2; 3; 2]
                      [1%Z; 2%Z; 3%Z; 4%Z; 5%Z; 6%Z; 7%Z; 8%Z; 9%Z; 10%Z;
                       11%Z; 12%Z])]).
Proof.
  destruct (display_image_shows_or_raises toy_imshow 0 false flat_depth_world
              flat_depth eq_refl) as [Hout _].
  destruct (display_image_shows_or_raises toy_imshow 0 true flat_depth_world
              flat_depth eq_refl) as [Hin _].
  destruct (display_image_shows_or_raises toy_imshow 1 false display_world
              gray_batch eq_refl) as [_ Hgood].
  destruct (display_image_shows_or_raises toy_imshow 0 true odd_display_world
              rank5_batch eq_refl) as [_ Hodd].
  split; [apply Hout; left; cbn; lia|]. split; [apply Hin; left; cbn; lia|].
  split.
  - destruct Hgood as (img & Himg & Hok & _).
    { intros [Hlen|[[=]|[=]]]. cbn in Hlen. lia. }
    vm_compute in Himg. injection Himg as <-. exact (Hok eq_refl).
  - destruct Hodd as (img & Himg & _ & Hraise).
    { intros [Hlen|[[=]|[=]]]. cbn in Hlen. lia. }
    vm_compute in Himg. injection Himg as <-.
    exact (Hraise (OtherError "TypeError") eq_refl).
Defined.

Lemma display_predicts_before_showing_witness :
  display toy_imshow failing_predict_wrapper tt 0 1 display_world
  = (Raise (OtherError "InvalidArgumentError"),
     World [rgb_batch; gray_batch] None [EvPredict rgb_batch]).
Proof.
  destruct (display_predicts_before_showing toy_imshow
              failing_predict_wrapper tt 0 1
              display_world rgb_batch gray_batch
              (OtherError "InvalidArgumentError") eq_refl eq_refl)
    as [Hfirst _].
  exact (Hfirst eq_refl).
Defined.

Lemma get_sink_to_bathtub_inputs_returns_witness :
  ∃ input_image target_depth_output w',
    get_sink_to_bathtub_inputs toy_wrapper tt initial_world
    = (Ok (input_image, target_depth_output), w')
    ∧ input_image ≠ target_depth_output
    ∧ heap w' !! input_image = Some toy_sink
    ∧ heap w' !! target_depth_output = Some toy_bathtub.
Proof.
  destruct (get_sink_to_bathtub_inputs_returns toy_wrapper tt initial_world
              toy_sink toy_bathtub toy_bathtub eq_refl eq_refl eq_refl)
    as (i & g & w' & Hrun & Hne & _ & _ & Hi & Hg & _).
  exists i, g, w'. split; [exact Hrun|]. split; [exact Hne|].
  split; [exact Hi|exact Hg].
Defined.

Lemma analytic_function_computes :
  computes analytic_function analytic_loss_at analytic_gradient_at
    (shape toy_sink).
Proof.
  apply (K_function_computes toy_loss
           (gradients_of analytic_gradients toy_epsilon toy_loss)
           (λ x, value_or 0%Z (toy_loss x)) analytic_gradient_at).
  intros x Hs Hwf. split.
  - unfold toy_loss, loss_of, scale_factor, K_div, K_sum, K_square, K_sub,
      K_constant, K_prod, K_cast_shape, toy_final_layer.
    cbn [mbind result_bind]. unfold np_sub.
    rewrite np_binary_same by (done || by rewrite Hs). done.
  - unfold analytic_gradient_at, gradients_of, K_div_scalar, normalizer,
      K_maximum, K_mean, K_abs, analytic_gradients.
    cbn [mbind result_bind value_or]. split; [done|]. split; [done|].
    unfold well_formed in *. cbn. by rewrite !length_fmap.
Defined.

Lemma generate_adversarial_example_alters_by_updates_witness :
  generate_adversarial_example analytic_gradients toy_epsilon toy_compile
    toy_imshow toy_wrapper 3%Z 2%Z initial_world
  = display toy_imshow toy_wrapper tt 3 0
      (World [image_after analytic_gradient_at 2%Z 3 toy_sink;
              toy_bathtub; toy_bathtub; toy_sink]
         (Some analytic_function)
         (setup_events toy_bathtub ++ [EvGetFinalLayer; EvBindGlobal]
            ++ loop_events 0 analytic_loss_at analytic_gradient_at 2%Z
                 toy_sink 0 3)).
Proof.
  exact (generate_adversarial_example_alters_by_updates analytic_gradients
           toy_epsilon toy_compile toy_imshow toy_wrapper 3%Z 2%Z
           initial_world tt toy_sink toy_bathtub toy_bathtub toy_final_layer
           analytic_loss_at analytic_gradient_at eq_refl eq_refl eq_refl
           eq_refl eq_refl eq_refl analytic_function_computes).
Defined.

Lemma loss_vanishes_at_target_witness :
  loss_of toy_final_layer toy_bathtub toy_bathtub = Ok 0%Z.
Proof.
  apply (loss_vanishes_at_target (H:=Z_arith) toy_final_layer toy_bathtub toy_bathtub
           eq_refl eq_refl);
    [intros v; cbn; lia|reflexivity|reflexivity|intros d; by destruct d].
Defined.

Lemma zero_gradient_stays_zero_witness :
  normalizer toy_epsilon (zero_gradients toy_loss) toy_sink = Ok 1%Z
  ∧ gradients_of zero_gradients toy_epsilon toy_loss toy_sink
    = Ok (np_zeros (shape toy_sink)).
Proof.
  apply (zero_gradient_stays_zero (H:=Z_arith) zero_gradients toy_epsilon
           toy_loss toy_sink (np_zeros (shape toy_sink))
           eq_refl eq_refl eq_refl eq_refl);
    [intros d; by destruct d|reflexivity].
Defined.


(** ** The script on floating-point pixels *)

Section Floats.
#[local] Existing Instance float_arith.
Import PrimFloat.

Lemma float_neq (u v t : float) :
  leb t u = true → leb t v = false → u ≠ v.
Proof. intros Hu Hv Huv. rewrite Huv in Hu. congruence. Qed.

Lemma some_float_neq (u v : float) : u ≠ v → Some u ≠ Some v.
Proof. intros Huv Heq. apply Huv. exact (f_equal (default u) Heq). Qed.

Lemma ok_float_neq (u v : float) : u ≠ v → Ok u ≠ Ok v.
Proof. intros Huv Heq. apply Huv. exact (f_equal (value_or u) Heq). Qed.

Lemma unit_gradient_computes (s : list nat) :
  computes unit_gradient unit_gradient_loss unit_gradient_grad s.
Proof.
  intros x Hs Hwf. split; [reflexivity|]. split; [exact Hs|].
  unfold well_formed, unit_gradient_grad. cbn [data shape].
  rewrite length_replicate. exact Hwf.
Qed.

(** Three updates of [(1, 2)] with step 2 and gradient [2 x] on integer
    pixels: each update multiplies by -3, and the result is the start minus
    the accumulated steps. Three updates of one pixel of value 1 with step
    0.1 and gradient 1 on floating-point pixels: the object holds the
    result of the three subtractions. *)
Lemma gradient_ascent_update_law_witness :
  (∃ w',
     gradient_ascent 0 3%Z 2%Z toy_world = (Ok 0, w')
     ∧ heap w' !! 0 = Some (Ndarray [2] [(-27)%Z; (-54)%Z])
     ∧ accumulated toy_quadratic_grad 2%Z 3 toy_vector
       = Ndarray [2] [28%Z; 56%Z]
     ∧ image_after toy_quadratic_grad 2%Z 3 toy_vector
       = elementwise fsub toy_vector
           (accumulated toy_quadratic_grad 2%Z 3 toy_vector))
  ∧ (∃ w',
       gradient_ascent 0 3%Z 0.1%float float_world = (Ok 0, w')
       ∧ heap w' !! 0
         = Some (image_after unit_gradient_grad 0.1%float 3 float_pixel)
       ∧ image_after unit_gradient_grad 0.1%float 3 float_pixel
         = Ndarray [1] [0.70000000000000007%float]).
Proof.
  split.
  - destruct (gradient_ascent_update_law (H:=Z_arith) toy_quadratic
                toy_quadratic_loss toy_quadratic_grad 0 3%Z 2%Z toy_vector
                toy_world eq_refl eq_refl eq_refl toy_quadratic_computes)
      as (w' & Hrun & Hheap & _ & Hsum).
    exists w'. split; [exact Hrun|]. split; [exact Hheap|].
    split; [reflexivity|]. exact (Hsum Z_sub_sub Z_sub_zero).
  - destruct (gradient_ascent_update_law (H:=float_arith) unit_gradient
                unit_gradient_loss unit_gradient_grad 0 3%Z 0.1%float
                float_pixel float_world eq_refl eq_refl eq_refl
                (unit_gradient_computes _))
      as (w' & Hrun & Hheap & _ & _).
    exists w'. split; [exact Hrun|]. split; [exact Hheap|].
    vm_compute. reflexivity.
Defined.

(** C1, counterexample. One pixel of value 1, gradient 1 and step 0.1, three
    iterations. The compiled function computes a loss and a gradient of
    the image's shape, and the call returns its argument; the image object
    holds the result of three rounded subtractions, 0.70000000000000007,
    whereas the initial image minus the accumulated sum of the three steps
    is 0.69999999999999996: the sum 0.1 + 0.1 + 0.1 is rounded on its
    own. *)
Lemma gradient_ascent_rounds_each_update :
  (gradient_ascent 0 3%Z 0.1%float float_world).1 = Ok 0
  ∧ heap (gradient_ascent 0 3%Z 0.1%float float_world).2 !! 0
    = Some (Ndarray [1] [0.70000000000000007%float])
  ∧ image_after unit_gradient_grad 0.1%float 3 float_pixel
    = Ndarray [1] [0.70000000000000007%float]
  ∧ accumulated unit_gradient_grad 0.1%float 3 float_pixel
    = Ndarray [1] [0.30000000000000004%float]
  ∧ elementwise fsub float_pixel
      (accumulated unit_gradient_grad 0.1%float 3 float_pixel)
    = Ndarray [1] [0.69999999999999996%float]
  ∧ ¬ (∀ (f : kfunction float) loss grad r (iterations : Z) (s : float) x0
         (w : world float),
         get_loss_and_gradients w = Some f →
         heap w !! r = Some x0 →
         well_formed x0 →
         computes f loss grad (shape x0) →
         ∃ w',
           gradient_ascent r iterations s w = (Ok r, w')
           ∧ heap w' !! r
             = Some (elementwise fsub x0
                       (accumulated grad s (Z.to_nat iterations) x0))).
Proof.
  split; [vm_compute; reflexivity|]. split; [vm_compute; reflexivity|].
  split; [vm_compute; reflexivity|]. split; [vm_compute; reflexivity|].
  split; [vm_compute; reflexivity|].
  intros Hall.
  destruct (Hall unit_gradient unit_gradient_loss unit_gradient_grad 0 3%Z
              0.1%float float_pixel float_world eq_refl eq_refl eq_refl
              (unit_gradient_computes _))
    as (w' & Hrun & Hheap).
  pose proof (f_equal (λ p, data <$> heap p.2 !! 0) Hrun) as Hobject.
  cbn [snd] in Hobject. rewrite Hheap in Hobject.
  apply (f_equal (λ d, default [] d !! 0)) in Hobject.
  vm_compute in Hobject. revert Hobject. apply some_float_neq.
  apply (float_neq _ _ 0.70000000000000007%float); vm_compute; reflexivity.
Qed.

(** An activation of two elements against a batch of three targets: the
    six squared differences add up to 28, and the loss is 28 / 2. Against
    one target of its own shape the loss is the mean squared error. *)
Lemma loss_is_sum_of_squares_over_size_witness :
  broadcast_shape (shape float_activation) (shape float_targets)
  = Ok [3; 1; 2; 1]
  ∧ (∃ dfl dg,
       broadcast_to [3; 1; 2; 1] float_activation = Ok dfl
       ∧ broadcast_to [3; 1; 2; 1] float_targets = Ok dg
       ∧ length (zip_with fsub dfl dg) = 6
       ∧ sum_of_squares (zip_with fsub dfl dg) = 28%float
       ∧ loss_of float_final_layer float_targets float_activation
         = Ok 14%float)
  ∧ foldr fmul fone (fof_nat <$> shape float_activation)
    = fof_nat (length (data float_activation))
  ∧ loss_of float_final_layer float_target float_activation
    = mean_squared_error float_activation float_target.
Proof.
  destruct (loss_is_sum_of_squares_over_size (H:=float_arith)
              float_final_layer float_targets float_activation
              float_activation eq_refl eq_refl eq_refl)
    as (Hbroadcast & _ & _ & Hsize).
  destruct (loss_is_sum_of_squares_over_size (H:=float_arith)
              float_final_layer float_target float_activation
              float_activation eq_refl eq_refl eq_refl)
    as (Hsame & _).
  assert (Hexact : exact_sizes (shape float_activation)).
  { repeat split; vm_compute; reflexivity. }
  split; [vm_compute; reflexivity|]. split; [|split].
  - destruct (Hbroadcast [3; 1; 2; 1] ltac:(vm_compute; reflexivity))
      as (dfl & dg & Hdfl & Hdg & _ & _ & Hloss & _).
    exists dfl, dg. split; [exact Hdfl|]. split; [exact Hdg|].
    rewrite Hloss.
    apply (f_equal (value_or [])) in Hdfl. vm_compute in Hdfl. subst dfl.
    apply (f_equal (value_or [])) in Hdg. vm_compute in Hdg. subst dg.
    split; [reflexivity|]. split; vm_compute; reflexivity.
  - exact (Hsize Hexact).
  - destruct (Hsame [1; 1; 2; 1] ltac:(vm_compute; reflexivity))
      as (dfl & dg & _ & _ & _ & _ & _ & _ & Hmean).
    exact (Hmean eq_refl Hexact).
Defined.

(** C2, counterexample. With a batch of three targets for an activation of
    two elements, the difference has six elements; the loss is the sum of
    their squares over the two elements of the activation, 28 / 2 = 14,
    and not the mean squared error, 28 / 6. *)
Lemma loss_is_not_the_mean_over_a_broadcast :
  well_formed float_activation
  ∧ well_formed float_targets
  ∧ np_sub float_activation float_targets
    = Ok (Ndarray [3; 1; 2; 1] [1; 2; -1; -2; -3; -3]%float)
  ∧ length (data float_activation) = 2
  ∧ loss_of float_final_layer float_targets float_activation = Ok 14%float
  ∧ mean_squared_error float_activation float_targets
    = Ok 4.666666666666667%float
  ∧ ¬ (∀ (final_layer_output : sym float (ndarray float))
         (goal_output x fl : ndarray float),
         final_layer_output x = Ok fl →
         well_formed fl →
         well_formed goal_output →
         loss_of final_layer_output goal_output x
         = mean_squared_error fl goal_output).
Proof.
  split; [reflexivity|]. split; [reflexivity|].
  split; [vm_compute; reflexivity|]. split; [reflexivity|].
  split; [vm_compute; reflexivity|]. split; [vm_compute; reflexivity|].
  intros Hall.
  pose proof (Hall float_final_layer float_targets float_activation
                float_activation eq_refl eq_refl eq_refl) as Hloss.
  vm_compute in Hloss. revert Hloss. apply ok_float_neq.
  apply (float_neq _ _ 14%float); vm_compute; reflexivity.
Qed.

(** The raw gradient [(3, −1)] has mean absolute value 2, above the floor:
    2 is the divisor, and the normalised gradient is [(1.5, −0.5)]. With a
    NaN entry the divisor is NaN. *)
Lemma normalizer_floor_witness :
  (∃ divisor,
     normalizer float_epsilon (gradients_fixed float_gradient float_loss)
       float_pixel = Ok divisor
     ∧ divisor = 2%float
     ∧ fleb float_epsilon divisor = true
     ∧ divisor ≠ fzero
     ∧ gradients_of (gradients_fixed float_gradient) float_epsilon float_loss
         float_pixel
       = Ok (Ndarray [2] [1.5; -0.5]%float))
  ∧ (∃ divisor,
       normalizer float_epsilon (gradients_fixed nan_gradient float_loss)
         float_pixel = Ok divisor
       ∧ divisor = nan
       ∧ fleb float_epsilon divisor = false).
Proof.
  split.
  - destruct (normalizer_floor (H:=float_arith) (gradients_fixed float_gradient)
                float_epsilon float_loss float_pixel float_gradient eq_refl)
      as (divisor & Hn & _ & Hg & Hnumber & _).
    destruct Hnumber as (Hmean & _ & Hge & Hnz).
    { left. vm_compute. reflexivity. }
    { intros Hle. vm_compute in Hle. discriminate Hle. }
    { vm_compute. reflexivity. }
    { vm_compute. reflexivity. }
    assert (Hdivisor : divisor = 2%float).
    { rewrite Hmean by (vm_compute; reflexivity). vm_compute. reflexivity. }
    exists divisor. split; [exact Hn|]. split; [exact Hdivisor|].
    split; [exact Hge|]. split; [exact Hnz|].
    rewrite Hg, Hdivisor. vm_compute. reflexivity.
  - destruct (normalizer_floor (H:=float_arith) (gradients_fixed nan_gradient)
                float_epsilon float_loss float_pixel nan_gradient eq_refl)
      as (divisor & Hn & _ & _ & _ & Hnan).
    destruct Hnan as (Hmean & Hbelow).
    { vm_compute. reflexivity. }
    { vm_compute. reflexivity. }
    exists divisor. split; [exact Hn|]. split; [|exact Hbelow].
    rewrite Hmean. vm_compute. reflexivity.
Defined.

(** C3, counterexample. A gradient with a NaN entry, and an empty gradient,
    whose mean is 0/0: the mean of the absolute values is NaN, which is not
    at least the floor; the divisor is that NaN and not the floor, and it
    is not at least the floor. *)
Lemma normalizer_is_nan_at_nan_gradient :
  normalizer float_epsilon (gradients_fixed nan_gradient float_loss)
    float_pixel = Ok nan
  ∧ normalizer float_epsilon (gradients_fixed empty_gradient float_loss)
      float_pixel = Ok nan
  ∧ fleb float_epsilon fzero = false
  ∧ fleb float_epsilon (tf_mean (tf_abs nan_gradient)) = false
  ∧ fleb float_epsilon (tf_mean (tf_abs empty_gradient)) = false
  ∧ nan ≠ float_epsilon
  ∧ fleb float_epsilon nan = false
  ∧ ¬ (∀ (K_gradients : sym float float → sym float (ndarray float))
         (K_epsilon : float) (loss : sym float float) (x gv : ndarray float),
         K_gradients loss x = Ok gv →
         fleb K_epsilon fzero = false →
         ∃ divisor,
           normalizer K_epsilon (K_gradients loss) x = Ok divisor
           ∧ (fleb K_epsilon (tf_mean (tf_abs gv)) = true →
              divisor = tf_mean (tf_abs gv))
           ∧ (fleb K_epsilon (tf_mean (tf_abs gv)) = false →
              divisor = K_epsilon)
           ∧ fleb K_epsilon divisor = true).
Proof.
  split; [vm_compute; reflexivity|]. split; [vm_compute; reflexivity|].
  split; [vm_compute; reflexivity|]. split; [vm_compute; reflexivity|].
  split; [vm_compute; reflexivity|].
  split.
  { intros Heq. symmetry in Heq. revert Heq.
    apply (float_neq _ _ float_epsilon); vm_compute; reflexivity. }
  split; [vm_compute; reflexivity|].
  intros Hall.
  destruct (Hall (gradients_fixed nan_gradient) float_epsilon float_loss
              float_pixel nan_gradient eq_refl ltac:(vm_compute; reflexivity))
    as (divisor & Hn & _ & _ & Hge).
  apply (f_equal (value_or fzero)) in Hn. vm_compute in Hn. subst divisor.
  vm_compute in Hge. discriminate Hge.
Qed.
End Floats.
